(** * Bosch locator bridge: a shallow embedding and its properties

    The development follows the two translation units of the bridge:

    - [locator_bridge_node.cpp]: the module version check, the sensor
      callbacks (laser, laser2, odometry), the service callbacks that talk
      to the appliance through the session client, and the laser scan
      diagnosis;
    - [receiving_interface.cpp]: the read-event handler shared by the
      telemetry channels and the publication step of the localization pose
      channel.

    Conventions.  C++ [int32_t] versions and [rclcpp::Time] nanosecond
    stamps are integers ([Z]); a sequence counter is an integer reduced
    modulo the width of its type; [std::string] is [string];
    [std::unordered_map] and the JSON query objects are finite maps
    ([gmap string _]); [std::vector] is [list].  The three angle fields
    of a laser scan, on which the diagnosis computes, are IEEE 754 binary32
    values ([spec_float] at precision 24) and the diagnosis rounds as the
    code does, operation by operation; the other [float]/[double] fields of
    the messages are only copied or compared with zero and are written as
    the rationals they denote ([Q]).  Where a value is only
    copied (the covariance entries) its type is left abstract.  Logging and
    the calls made on collaborators are recorded as traces in the state. *)

From stdpp Require Import gmap strings list numbers.
From Stdlib Require Import QArith Qabs Strings.Byte Floats.SpecFloat.

Local Open Scope string_scope.
Local Open Scope list_scope.
Local Open Scope Z_scope.

(** Modelled from the spec: the name of the fixed map reference frame, a
    constant of a header that is not among the sources. *)
Definition MAP_FRAME_ID : string := "map".

(** ** 1. Module version check ([locator_bridge_node.cpp]) *)

Module Versions.

(** [std::pair<int32_t, int32_t>]: major, minor. *)
Abbreviation version := (Z * Z)%type.

(** The static registry, in the order of the initialiser list (entries
    commented out in the source are left out here as well). *)
Definition REQUIRED_MODULE_VERSIONS : list (string * version) :=
  [ ("AboutModules", (5, 0));
    ("Session", (3, 1));
    ("Licensing", (6, 1));
    ("Config", (5, 0));
    ("AboutBuild", (3, 0));
    ("Certificate", (3, 0));
    ("System", (3, 1));
    ("ClientControl", (3, 1));
    ("ClientRecording", (4, 0));
    ("ClientMap", (4, 0));
    ("ClientLocalization", (6, 0));
    ("ClientGlobalAlign", (4, 0));
    ("ClientSensor", (5, 1)) ].

(** The test of the loop body: major version number needs to match, minor
    version number equal or bigger. *)
Definition version_ok (actual required : version) : bool :=
  (actual.1 =? required.1) && (actual.2 >=? required.2).

(** The [for] loop of [check_module_versions] over a registry: the first
    required module that is missing or does not fit returns [false]; falling
    out of the loop returns [true].  (The warnings it logs on the way do not
    influence the result and are not recorded.) *)
Fixpoint check_against (required : list (string * version))
    (module_versions : gmap string version) : bool :=
  match required with
  | [] => true
  | (module_name, required_version) :: more =>
      match module_versions !! module_name with
      | None => false
      | Some actual_version =>
          if version_ok actual_version required_version
          then check_against more module_versions
          else false
      end
  end.

Definition check_module_versions (module_versions : gmap string version) : bool :=
  check_against REQUIRED_MODULE_VERSIONS module_versions.

(** A required module that is reported as it has to be. *)
Definition satisfied (module_versions : gmap string version)
    (entry : string * version) : Prop :=
  ∃ actual_major actual_minor,
    module_versions !! entry.1 = Some (actual_major, actual_minor)
    ∧ actual_major = entry.2.1 ∧ entry.2.2 ≤ actual_minor.

(** A required module that is not: missing, or of another major version,
    or of a smaller minor version. *)
Definition offending (module_versions : gmap string version)
    (entry : string * version) : Prop :=
  module_versions !! entry.1 = None
  ∨ ∃ actual_major actual_minor,
      module_versions !! entry.1 = Some (actual_major, actual_minor)
      ∧ (actual_major ≠ entry.2.1 ∨ actual_minor < entry.2.2).

End Versions.

(** ** 2. The telemetry receiving interfaces ([receiving_interface.cpp]) *)

Module Receiving.

(** How a block of the handler ends: normally, with the
    [std::ios_base::failure] that the reader throws, or with any other
    exception. *)
Variant completion : Set := Normal | IosFailure | OtherException.

(** Modelled from the spec: the converter of a channel
    ([RosMsgsDatagramConverter], not among the sources) as a program over the
    binary reader.  It reads its record byte by byte, each next step chosen
    from the bytes read so far (fixed-width fields, count-prefixed sections),
    and ends either with the decoded value or with an exception that is not
    the reader's own. *)
Inductive Decoder (M : Type) : Type :=
  | Emit (m : M)
  | Read (k : byte → Decoder M)
  | Raise.
Arguments Emit {M} m.
Arguments Read {M} k.
Arguments Raise {M}.

(** Modelled from the spec: the outcome of one decode attempt on the bytes
    that are buffered.  [Parsed] consumed exactly one record and leaves the
    bytes after it; [Incomplete] is the incomplete signal, and it carries no
    buffer because the attempt leaves the stream where it was; [Failed] is
    any other decode error, raised after the bytes before [rest] were read. *)
Variant attempt (M : Type) : Type :=
  | Parsed (m : M) (rest : list byte)
  | Incomplete
  | Failed (rest : list byte).
Arguments Parsed {M} m rest.
Arguments Incomplete {M}.
Arguments Failed {M} rest.

(** Modelled from the spec: the all-or-nothing decode of one record, the
    reader running out of bytes being the incomplete signal. *)
Fixpoint readRecord {M : Type} (d : Decoder M) (buf : list byte) : attempt M :=
  match d with
  | Emit m => Parsed m buf
  | Raise => Failed buf
  | Read k =>
      match buf with
      | [] => Incomplete
      | b :: rest => readRecord (k b) rest
      end
  end.

(** The members of [ReceivingInterface] that the handler touches, with the
    effects on its collaborators kept as traces. *)
Record Interface (Out : Type) : Type := MkInterface {
  unread : list byte;        (* arrived on [ccm_socket_], not yet consumed by [binary_reader_] *)
  published : list Out;      (* handed to the publishers, oldest first *)
  log : list string;         (* [RCLCPP_ERROR_STREAM] lines *)
  console : list string;     (* [std::cout] lines *)
  reactor_stopped : bool;    (* [reactor_.stop()] was called *)
  socket_shut_down : bool    (* [ccm_socket_.shutdown()] was called *)
}.
Arguments MkInterface {Out}.
Arguments unread {Out}.
Arguments published {Out}.
Arguments log {Out}.
Arguments console {Out}.
Arguments reactor_stopped {Out}.
Arguments socket_shut_down {Out}.

Section Channel.

(** A channel decodes values of type [M] and publishes messages of type
    [Out]; [convert] is its converter, entered with the first byte of a
    record, and [publish] is the rest of its [tryToParseData]. *)
Context {M Out : Type}.
Variable convert : byte → Decoder M.
Variable publish : M → list Out.

Definition set_unread (buf : list byte) (st : Interface Out) : Interface Out :=
  MkInterface buf (published st) (log st) (console st)
              (reactor_stopped st) (socket_shut_down st).

Definition add_published (ms : list Out) (st : Interface Out) : Interface Out :=
  MkInterface (unread st) (published st ++ ms) (log st) (console st)
              (reactor_stopped st) (socket_shut_down st).

Definition add_log (line : string) (st : Interface Out) : Interface Out :=
  MkInterface (unread st) (published st) (log st ++ [line]) (console st)
              (reactor_stopped st) (socket_shut_down st).

Definition add_console (line : string) (st : Interface Out) : Interface Out :=
  MkInterface (unread st) (published st) (log st) (console st ++ [line])
              (reactor_stopped st) (socket_shut_down st).

(** A connected interface on which nothing has happened yet. *)
Definition connected : Interface Out := MkInterface [] [] [] [] false false.

(** [ccm_socket_.available()]. *)
Definition available (st : Interface Out) : nat := length (unread st).

(** [tryToParseData(binary_reader_)] of a channel: the converter call, which
    is [readRecord] on the unread bytes, then the publication of what it
    gave.  An exception leaves the body before anything is published. *)
Definition tryToParseData (st : Interface Out) : completion * Interface Out :=
  match readRecord (Read convert) (unread st) with
  | Parsed m rest => (Normal, add_published (publish m) (set_unread rest st))
  | Incomplete => (IosFailure, st)
  | Failed rest => (OtherException, set_unread rest st)
  end.

(** [while (ccm_socket_.available()) { tryToParseData(binary_reader_); }].
    An exception ends the loop.  Every record has at least one byte, so a
    turn that parses shortens the unread bytes and the number of bytes
    available bounds the number of turns; [parse_loop_fuel] below shows
    that any larger bound gives the same result. *)
Fixpoint parse_loop (fuel : nat) (st : Interface Out) : completion * Interface Out :=
  match fuel with
  | O => (Normal, st)
  | S fuel' =>
      match available st with
      | O => (Normal, st)
      | S _ =>
          match tryToParseData st with
          | (Normal, st') => parse_loop fuel' st'
          | stopped => stopped
          end
      end
  end.

(** The [try] block of [onReadEvent]. *)
Definition try_block (st : Interface Out) : completion * Interface Out :=
  let st :=
    match available st with
    | O => add_console "received msg of length 0... Connection closed? " st
    | S _ => st
    end in
  parse_loop (available st) st.

(** [onReadEvent]: the [try] block with its two handlers.  The handler of
    [std::ios_base::failure] is empty, the catch-all handler logs. *)
Definition onReadEvent (st : Interface Out) : completion * Interface Out :=
  match try_block st with
  | (Normal, st') => (Normal, st')
  | (IosFailure, st') => (Normal, st')
  | (OtherException, st') =>
      (Normal, add_log "Caught exception in ReceivingInterface!" st')
  end.

(** [~ReceivingInterface]. *)
Definition destroy (st : Interface Out) : Interface Out :=
  MkInterface (unread st) (published st) (log st) (console st) true true.

(** The appliance sends [chunk]: the bytes queue up behind the unread ones. *)
Definition arrive (chunk : list byte) (st : Interface Out) : Interface Out :=
  set_unread (unread st ++ chunk) st.

(** One readiness event of the reactor for the bytes of [chunk]. *)
Definition deliver (chunk : list byte) (st : Interface Out) : Interface Out :=
  (onReadEvent (arrive chunk st)).2.

(** A stream delivered in pieces, one readiness event per piece. *)
Definition feed (chunks : list (list byte)) (st : Interface Out) : Interface Out :=
  foldl (λ st chunk, deliver chunk st) st chunks.

(** The loop without the interface around it: how it ended, the values it
    decoded, the bytes it left. *)
Fixpoint drain (fuel : nat) (buf : list byte) : completion * list M * list byte :=
  match fuel with
  | O => (Normal, [], buf)
  | S fuel' =>
      match buf with
      | [] => (Normal, [], [])
      | _ :: _ =>
          match readRecord (Read convert) buf with
          | Parsed m rest =>
              let '(c, ms, leftover) := drain fuel' rest in (c, m :: ms, leftover)
          | Incomplete => (IosFailure, [], buf)
          | Failed rest => (OtherException, [], rest)
          end
      end
  end.

Definition drained (buf : list byte) : completion * list M * list byte :=
  drain (length buf) buf.

(** The interface after the loop decoded [ms] and left [leftover]. *)
Definition settle (ms : list M) (leftover : list byte) (st : Interface Out) :
    Interface Out :=
  MkInterface leftover (published st ++ concat (publish <$> ms)) (log st)
              (console st) (reactor_stopped st) (socket_shut_down st).

(** An interface whose unread bytes hold no complete record and no
    malformed one: what every handler run without a decode error leaves. *)
Definition quiescent (st : Interface Out) : Prop :=
  (drained (unread st)).1.1 ≠ OtherException
  ∧ (drained (unread st)).1.2 = []
  ∧ (drained (unread st)).2 = unread st.

End Channel.

(** *** The localization pose channel *)

Section LocalizationPose.

(** [double] values are only moved around here; [zero] is the value of a
    value-initialised one.  [ClientLocalizationPose] is the message that
    the converter fills in, and [LASER_FRAME_ID] the sensor frame constant
    of the header. *)
Variable double : Type.
Variable zero : double.
Variable ClientLocalizationPose : Type.
Variable LASER_FRAME_ID : string.

Record Header : Type := MkHeader {
  stamp : Z;
  frame_id : string
}.

Record Pose : Type := MkPose {
  position : double * double * double;
  orientation : double * double * double * double
}.

Record PoseStamped : Type := MkPoseStamped {
  ps_header : Header;
  ps_pose : Pose
}.

Record PoseWithCovarianceStamped : Type := MkPoseWithCovarianceStamped {
  pwc_header : Header;
  pwc_pose : Pose;
  pwc_covariance : list double     (* [std::array<double, 36>], row-major 6x6 *)
}.

Record TransformStamped : Type := MkTransformStamped {
  tf_header : Header;
  child_frame_id : string;
  translation : double * double * double;
  rotation : double * double * double * double
}.

(** What [convertClientLocalizationPoseDatagram2Message] hands back for one
    datagram.  [covariance] is the local array [double covariance[6]]: it
    starts as six zeros, so an entry the converter did not write reads as
    [zero]. *)
Record Decoded : Type := MkDecoded {
  client_localization_pose : ClientLocalizationPose;
  pose : PoseStamped;
  covariance : list double;
  lidar_odo_pose : PoseStamped
}.

(** What the channel hands to its publishers and to the transform
    broadcaster. *)
Variant message : Type :=
  | Transform (t : TransformStamped)
  | LocalizationPose (m : ClientLocalizationPose)
  | PoseWithCovariance (p : PoseWithCovarianceStamped)
  | LidarOdoPose (p : PoseStamped).

(** The transform that [publishTransform] sends. *)
Definition publishTransform (p : PoseStamped) (parent_frame child_frame : string) :
    TransformStamped :=
  MkTransformStamped (MkHeader (stamp (ps_header p)) parent_frame)
                     child_frame
                     (position (ps_pose p))
                     (orientation (ps_pose p)).

(** "assign right triangle of 3x3 matrix to 6x6 matrix": the six
    assignments on the value-initialised covariance array of the message. *)
Definition pack_covariance (covariance : list double) : list double :=
  <[35%nat := nth 5 covariance zero]>
    (<[11%nat := nth 4 covariance zero]>
      (<[7%nat := nth 3 covariance zero]>
        (<[5%nat := nth 2 covariance zero]>
          (<[1%nat := nth 1 covariance zero]>
            (<[0%nat := nth 0 covariance zero]> (replicate 36 zero)))))).

(** [ClientLocalizationPoseInterface::tryToParseData] after the converter
    returned: build the pose with covariance, publish, in this order. *)
Definition publishLocalizationPose (d : Decoded) : list message :=
  let poseWithCov :=
    MkPoseWithCovarianceStamped (ps_header (pose d)) (ps_pose (pose d))
                                (pack_covariance (covariance d)) in
  [ Transform (publishTransform (pose d) MAP_FRAME_ID LASER_FRAME_ID);
    LocalizationPose (client_localization_pose d);
    PoseWithCovariance poseWithCov;
    LidarOdoPose (lidar_odo_pose d) ].

(** The channel as an instance of the shared handler. *)
Definition ClientLocalizationPoseInterface_onReadEvent
    (convert : byte → Decoder Decoded) :
    Interface message → completion * Interface message :=
  onReadEvent convert publishLocalizationPose.

End LocalizationPose.

End Receiving.

(** ** 3. The bridge node ([locator_bridge_node.cpp]) *)

Module Bridge.

(** *** Single and double precision

    [float] is IEEE 754 binary32 and [double] binary64; every operation
    rounds its exact result to the nearest value of its format, ties to
    even, as the operations of [SpecFloat] do at the precision and the
    exponent bound of the format.  Each operation of the source is one
    operation here: no product is fused with the sum that follows it. *)
Abbreviation float32 := spec_float.
Abbreviation float64 := spec_float.

Definition float_add : float32 → float32 → float32 := SFadd 24 128.
Definition float_sub : float32 → float32 → float32 := SFsub 24 128.
Definition float_mul : float32 → float32 → float32 := SFmul 24 128.
Definition double_mul : float64 → float64 → float64 := SFmul 53 1024.

(** An unsigned integer converted to [float]. *)
Definition float_of_size_t (n : Z) : float32 := binary_normalize 24 128 n 0 false.

(** A [float] converted to [double]: the same value, which always fits. *)
Definition double_of_float (x : float32) : float64 :=
  match x with
  | S754_finite s m e => binary_normalize 53 1024 (cond_Zopp s (Z.pos m)) e s
  | _ => x
  end.

(** The literal [0.5], a [double]. *)
Definition one_half : float64 := binary_normalize 53 1024 1 (-1) false.

(** [fabs] and [a > b] on [double]; [>] is false when a side is not a
    number. *)
Definition fabs (x : float64) : float64 := SFabs x.
Definition double_gt (a b : float64) : bool := SFltb b a.

(** The [float] nearest to [n / d], for writing values down. *)
Definition float_of_ratio (n d : Z) : float32 :=
  SFdiv 24 128 (float_of_size_t n) (float_of_size_t d).

(** The number that a [float] stands for, if it stands for one. *)
Definition float_value (x : float32) : option Q :=
  match x with
  | S754_zero _ => Some 0%Q
  | S754_finite s m e => Some (inject_Z (cond_Zopp s (Z.pos m)) * 2 ^ e)%Q
  | S754_infinity _ | S754_nan => None
  end.

(** [sensor_msgs::msg::LaserScan]; [stamp] is [header.stamp] in
    nanoseconds, as [rclcpp::Time] holds it. *)
Record LaserScan : Type := MkLaserScan {
  stamp : Z;
  frame_id : string;
  angle_min : float32;
  angle_max : float32;
  angle_increment : float32;
  time_increment : Q;
  scan_time : Q;
  range_min : Q;
  range_max : Q;
  ranges : list Q;
  intensities : list Q
}.

(** [nav_msgs::msg::Odometry]: the callback hands it to the converter
    untouched, so only a stamp and the planar pose and twist are kept. *)
Record Odometry : Type := MkOdometry {
  odom_stamp : Z;
  odom_pose : Q * Q * Q;
  odom_twist : Q * Q * Q
}.

(** [geometry_msgs::msg::PoseWithCovarianceStamped] as [setSeedCallback]
    reads it. *)
Record SeedPose : Type := MkSeedPose {
  seed_frame_id : string;
  seed_x : Q;
  seed_y : Q;
  seed_orientation : Q * Q * Q * Q
}.

(** Modelled from the spec: [encode(domainReading, sequenceNumber)], the
    converters of [RosMsgsDatagramConverter] that are not among the sources.
    The bytes are not modelled: a datagram is what was encoded. *)
Variant Datagram : Type :=
  | LaserScanDatagram (msg : LaserScan) (scan_num : Z)
  | OdometryDatagram (msg : Odometry) (odom_num : Z).

Definition sequence_number (d : Datagram) : Z :=
  match d with
  | LaserScanDatagram _ n => n
  | OdometryDatagram _ n => n
  end.

(** [SendingInterface::SendingStatus], as far as the callbacks tell the
    statuses apart. *)
Variant SendingStatus : Set := SUCCESS | IO_EXCEPTION.

(** Values that the callbacks put into a query or a config document. *)
Variant Value : Type :=
  | VBool (b : bool)
  | VString (s : string)
  | VPose2d (x y theta : Q).    (* [RosMsgsDatagramConverter::makePose2d(pose)] *)

(** What the node asks of [loc_client_interface_], in order. *)
Variant RpcEvent : Type :=
  | GetSessionQuery
  | Call (method : string) (query : gmap string Value)
  | SetConfigList (config : gmap string Value)
  | Refresh.

(** Lines of the node's logger; all of them are errors.  The lines about a
    laser scan are kept with the numbers they print. *)
Variant LogEntry : Type :=
  | Error (text : string)
  | InvalidScanAngles (angle_min : float32) (size_minus_1 : Z)
                      (angle_increment : float32) (reached : float32)
                      (angle_max : float32)
  | InvalidScanIntensities (param_name : string) (n_ranges n_intensities : nat).

(** The members of [LocatorBridgeNode] that the callbacks read or write, and
    the traces of what they did to the collaborators. *)
Record Node : Type := MkNode {
  scan_num_ : Z;
  scan2_num_ : Z;
  odom_num_ : Z;
  prev_laser_timestamp_ : Z;
  prev_laser2_timestamp_ : Z;
  last_recording_name_ : string;
  last_map_name_ : string;
  laser_sent : list Datagram;     (* handed to [laser_sending_interface_->sendData] *)
  laser2_sent : list Datagram;    (* handed to [laser2_sending_interface_->sendData] *)
  odom_sent : list Datagram;      (* handed to [odom_sending_interface_->sendData] *)
  rpc : list RpcEvent;
  log : list LogEntry
}.

(** Modelled from the spec: a node after construction.  The member
    initialisers are in the header; the first sequence number sent being 1
    makes the counters start at 0, and the other members are
    default-constructed. *)
Definition init : Node := MkNode 0 0 0 0 0 "" "" [] [] [] [] [].

Definition set_scan_num_ (n : Z) (st : Node) : Node :=
  MkNode n (scan2_num_ st) (odom_num_ st) (prev_laser_timestamp_ st)
         (prev_laser2_timestamp_ st) (last_recording_name_ st) (last_map_name_ st)
         (laser_sent st) (laser2_sent st) (odom_sent st) (rpc st) (log st).

Definition set_scan2_num_ (n : Z) (st : Node) : Node :=
  MkNode (scan_num_ st) n (odom_num_ st) (prev_laser_timestamp_ st)
         (prev_laser2_timestamp_ st) (last_recording_name_ st) (last_map_name_ st)
         (laser_sent st) (laser2_sent st) (odom_sent st) (rpc st) (log st).

Definition set_odom_num_ (n : Z) (st : Node) : Node :=
  MkNode (scan_num_ st) (scan2_num_ st) n (prev_laser_timestamp_ st)
         (prev_laser2_timestamp_ st) (last_recording_name_ st) (last_map_name_ st)
         (laser_sent st) (laser2_sent st) (odom_sent st) (rpc st) (log st).

Definition set_prev_laser_timestamp_ (t : Z) (st : Node) : Node :=
  MkNode (scan_num_ st) (scan2_num_ st) (odom_num_ st) t
         (prev_laser2_timestamp_ st) (last_recording_name_ st) (last_map_name_ st)
         (laser_sent st) (laser2_sent st) (odom_sent st) (rpc st) (log st).

Definition set_prev_laser2_timestamp_ (t : Z) (st : Node) : Node :=
  MkNode (scan_num_ st) (scan2_num_ st) (odom_num_ st) (prev_laser_timestamp_ st)
         t (last_recording_name_ st) (last_map_name_ st)
         (laser_sent st) (laser2_sent st) (odom_sent st) (rpc st) (log st).

Definition set_last_recording_name_ (name : string) (st : Node) : Node :=
  MkNode (scan_num_ st) (scan2_num_ st) (odom_num_ st) (prev_laser_timestamp_ st)
         (prev_laser2_timestamp_ st) name (last_map_name_ st)
         (laser_sent st) (laser2_sent st) (odom_sent st) (rpc st) (log st).

Definition set_last_map_name_ (name : string) (st : Node) : Node :=
  MkNode (scan_num_ st) (scan2_num_ st) (odom_num_ st) (prev_laser_timestamp_ st)
         (prev_laser2_timestamp_ st) (last_recording_name_ st) name
         (laser_sent st) (laser2_sent st) (odom_sent st) (rpc st) (log st).

Definition send_laser (d : Datagram) (st : Node) : Node :=
  MkNode (scan_num_ st) (scan2_num_ st) (odom_num_ st) (prev_laser_timestamp_ st)
         (prev_laser2_timestamp_ st) (last_recording_name_ st) (last_map_name_ st)
         (laser_sent st ++ [d]) (laser2_sent st) (odom_sent st) (rpc st) (log st).

Definition send_laser2 (d : Datagram) (st : Node) : Node :=
  MkNode (scan_num_ st) (scan2_num_ st) (odom_num_ st) (prev_laser_timestamp_ st)
         (prev_laser2_timestamp_ st) (last_recording_name_ st) (last_map_name_ st)
         (laser_sent st) (laser2_sent st ++ [d]) (odom_sent st) (rpc st) (log st).

Definition send_odom (d : Datagram) (st : Node) : Node :=
  MkNode (scan_num_ st) (scan2_num_ st) (odom_num_ st) (prev_laser_timestamp_ st)
         (prev_laser2_timestamp_ st) (last_recording_name_ st) (last_map_name_ st)
         (laser_sent st) (laser2_sent st) (odom_sent st ++ [d]) (rpc st) (log st).

Definition ask (events : list RpcEvent) (st : Node) : Node :=
  MkNode (scan_num_ st) (scan2_num_ st) (odom_num_ st) (prev_laser_timestamp_ st)
         (prev_laser2_timestamp_ st) (last_recording_name_ st) (last_map_name_ st)
         (laser_sent st) (laser2_sent st) (odom_sent st) (rpc st ++ events) (log st).

Definition write_log (lines : list LogEntry) (st : Node) : Node :=
  MkNode (scan_num_ st) (scan2_num_ st) (odom_num_ st) (prev_laser_timestamp_ st)
         (prev_laser2_timestamp_ st) (last_recording_name_ st) (last_map_name_ st)
         (laser_sent st) (laser2_sent st) (odom_sent st) (rpc st) (log st ++ lines).

(** [std::string::empty]. *)
Definition empty (s : string) : bool :=
  match s with
  | EmptyString => true
  | String _ _ => false
  end.

(** [a - b] on [size_t]. *)
Definition size_t_sub (a b : Z) : Z := (a - b) mod 2 ^ 64.

(** [rclcpp::Duration::seconds] of a difference of two stamps. *)
Definition seconds (nanoseconds : Z) : Q := nanoseconds # 1000000000.

(** [msg->scan_time = ...]. *)
Definition set_scan_time (t : Q) (msg : LaserScan) : LaserScan :=
  MkLaserScan (stamp msg) (frame_id msg) (angle_min msg) (angle_max msg)
              (angle_increment msg) (time_increment msg) t (range_min msg)
              (range_max msg) (ranges msg) (intensities msg).

(** The block that opens [laser_callback] and [laser2_callback], with the
    previous stamp of the callback's own channel: "If scan_time is not set,
    use timestamp difference to set it."  It gives the message as it goes on
    to the converter and the previous stamp as it is left behind. *)
Definition derive_scan_time (prev_timestamp : Z) (msg : LaserScan) : LaserScan * Z :=
  if Qeq_bool (scan_time msg) 0 then
    let laser_timestamp := stamp msg in
    let msg :=
      if prev_timestamp =? 0 then msg
      else set_scan_time (seconds (laser_timestamp - prev_timestamp)) msg in
    (msg, laser_timestamp)
  else (msg, prev_timestamp).

Section Callbacks.

(** The collaborators that are not among the sources:
    - [counter_modulus]: the sequence counters are members declared in the
      header; [++n] wraps at the width of their type;
    - [get_config_entry name]: the value of the appliance's config entry,
      if the lookup succeeds;
    - [session_query]: what [loc_client_interface_->getSessionQuery()]
      returns, a query that carries the session;
    - [getRPY_yaw]: the yaw that [tf2] reads off an orientation. *)
Variable counter_modulus : Z.
Variable get_config_entry : string → option string.
Variable session_query : gmap string Value.
Variable getRPY_yaw : Q * Q * Q * Q → Q.

(** [++n] on a sequence counter. *)
Definition pre_increment (n : Z) : Z := (n + 1) mod counter_modulus.

(** The sequence numbers of the first [n] datagrams of a channel whose
    counter started at 0: 1, 2, ..., n, each as the counter holds it. *)
Definition wrapped (n : nat) : list Z :=
  (λ k, k mod counter_modulus) <$> seqZ 1 (Z.of_nat n).

(** [checkLaserScan]: the lines it logs.  The angle fields are [float], so
    [ranges.size() - 1], a [size_t], is converted to [float] for the product,
    and sum and difference are taken on [float]; [0.5] is a [double], so the
    half increment is taken on [double], and so is the comparison.  [fabs]
    is applied to the [float] difference: whether it is the function on
    [double] or an overload on [float], the value compared is the same. *)
Definition checkLaserScan (msg : LaserScan) (laser : string) : list LogEntry :=
  let size_minus_1 := size_t_sub (Z.of_nat (length (ranges msg))) 1 in
  let reached :=
    float_add (angle_min msg)
              (float_mul (float_of_size_t size_minus_1) (angle_increment msg)) in
  if double_gt (fabs (double_of_float (float_sub reached (angle_max msg))))
               (fabs (double_mul one_half (double_of_float (angle_increment msg))))
  then [ InvalidScanAngles (angle_min msg) size_minus_1 (angle_increment msg)
                           reached (angle_max msg) ]
  else
    let param_name := "ClientSensor." +:+ laser +:+ ".useIntensities" in
    match get_config_entry param_name with
    | Some laser_use_intensities =>
        if String.eqb laser_use_intensities "true"
           && negb (length (ranges msg) =? length (intensities msg))%nat
        then [ InvalidScanIntensities param_name (length (ranges msg))
                                      (length (intensities msg)) ]
        else []
    | None => []
    end.

Definition laser_callback (msg : LaserScan) (status : SendingStatus) (st : Node) : Node :=
  let '(msg, prev) := derive_scan_time (prev_laser_timestamp_ st) msg in
  let st := set_prev_laser_timestamp_ prev st in
  let st := set_scan_num_ (pre_increment (scan_num_ st)) st in
  let st := send_laser (LaserScanDatagram msg (scan_num_ st)) st in
  match status with
  | IO_EXCEPTION => write_log (checkLaserScan msg "laser") st
  | SUCCESS => st
  end.

Definition laser2_callback (msg : LaserScan) (status : SendingStatus) (st : Node) : Node :=
  let '(msg, prev) := derive_scan_time (prev_laser2_timestamp_ st) msg in
  let st := set_prev_laser2_timestamp_ prev st in
  let st := set_scan2_num_ (pre_increment (scan2_num_ st)) st in
  let st := send_laser2 (LaserScanDatagram msg (scan2_num_ st)) st in
  match status with
  | IO_EXCEPTION => write_log (checkLaserScan msg "laser2") st
  | SUCCESS => st
  end.

Definition odom_callback (msg : Odometry) (status : SendingStatus) (st : Node) : Node :=
  let st := set_odom_num_ (pre_increment (odom_num_ st)) st in
  send_odom (OdometryDatagram msg (odom_num_ st)) st.

Definition clientMapSendCb (name : string) (st : Node) : Node :=
  let client_map_name := if empty name then last_map_name_ st else name in
  let query := <["clientMapName" := VString client_map_name]> session_query in
  ask [GetSessionQuery; Call "clientMapSend" query] st.

Definition clientMapSetCb (name : string) (st : Node) : Node :=
  let active_map_name := if empty name then last_map_name_ st else name in
  let config : gmap string Value :=
    {[ "ClientLocalization.activeMapName" := VString active_map_name ]} in
  ask [SetConfigList config] st.

Definition clientMapList (st : Node) : Node :=
  ask [GetSessionQuery; Call "clientMapList" session_query] st.

Definition clientLocalizationStartCb (st : Node) : Node :=
  ask [GetSessionQuery; Call "clientLocalizationStart" session_query] st.

Definition clientLocalizationStopCb (st : Node) : Node :=
  ask [GetSessionQuery; Call "clientLocalizationStop" session_query] st.

Definition setSeedCallback (msg : SeedPose) (st : Node) : Node :=
  if negb (String.eqb (seed_frame_id msg) MAP_FRAME_ID) then
    write_log
      [ Error ("2D Pose Estimate sent in wrong frame! Is: " +:+ seed_frame_id msg
               +:+ " but should be " +:+ MAP_FRAME_ID) ] st
  else
    let yaw := getRPY_yaw (seed_orientation msg) in
    let query :=
      <["seedPose" := VPose2d (seed_x msg) (seed_y msg) yaw]>
        (<["enforceSeed" := VBool true]> session_query) in
    ask [GetSessionQuery; Call "clientLocalizationSetSeed" query] st.

Definition clientRecordingStartVisualRecordingCb (name : string) (st : Node) : Node :=
  let query := <["recordingName" := VString name]> session_query in
  let st := set_last_recording_name_ name st in
  ask [GetSessionQuery; Call "clientRecordingStartVisualRecording" query] st.

Definition clientRecordingStopVisualRecordingCb (st : Node) : Node :=
  ask [GetSessionQuery; Call "clientRecordingStopVisualRecording" session_query] st.

Definition clientMapStartCb (req_recording_name req_client_map_name : string)
    (st : Node) : Node :=
  let recording_name :=
    if empty req_recording_name then last_recording_name_ st
    else req_recording_name in
  let client_map_name :=
    if empty req_client_map_name then "map-from-" +:+ recording_name
    else req_client_map_name in
  let query :=
    <["clientMapName" := VString client_map_name]>
      (<["recordingName" := VString recording_name]> session_query) in
  let st := set_last_map_name_ client_map_name st in
  ask [GetSessionQuery; Call "clientMapStart" query] st.

Definition clientMapStopCb (st : Node) : Node :=
  ask [GetSessionQuery; Call "clientMapStop" session_query] st.

(** What reaches the node after [init()]: sensor readings, each with the
    status that [sendData] will answer for its datagram, the seed topic,
    the services, and the session timer. *)
Variant Event : Type :=
  | LaserReading (msg : LaserScan) (status : SendingStatus)
  | Laser2Reading (msg : LaserScan) (status : SendingStatus)
  | OdometryReading (msg : Odometry) (status : SendingStatus)
  | SetSeed (msg : SeedPose)
  | StartVisualRecording (name : string)
  | StopVisualRecording
  | MapStart (recording_name client_map_name : string)
  | MapStop
  | LocalizationStart
  | LocalizationStop
  | MapSend (name : string)
  | MapSet (name : string)
  | MapList
  | ConfigGetEntry (name : string)
  | SessionRefresh.

(** The callback bound to each event.  [clientConfigGetEntryCb] only
    forwards to [get_config_entry], which writes no member. *)
Definition step (st : Node) (ev : Event) : Node :=
  match ev with
  | LaserReading msg status => laser_callback msg status st
  | Laser2Reading msg status => laser2_callback msg status st
  | OdometryReading msg status => odom_callback msg status st
  | SetSeed msg => setSeedCallback msg st
  | StartVisualRecording name => clientRecordingStartVisualRecordingCb name st
  | StopVisualRecording => clientRecordingStopVisualRecordingCb st
  | MapStart recording_name client_map_name =>
      clientMapStartCb recording_name client_map_name st
  | MapStop => clientMapStopCb st
  | LocalizationStart => clientLocalizationStartCb st
  | LocalizationStop => clientLocalizationStopCb st
  | MapSend name => clientMapSendCb name st
  | MapSet name => clientMapSetCb name st
  | MapList => clientMapList st
  | ConfigGetEntry _ => st
  | SessionRefresh => ask [Refresh] st
  end.

(** The node after a history of events, oldest first. *)
Definition run (history : list Event) (st : Node) : Node :=
  foldl step st history.

End Callbacks.

(** *** Notions of the properties, read off a history from its end *)

(** The name given by the most recent start-visual-recording request; the
    empty string when there was none.  [newest_first] is a history with its
    most recent event in front. *)
Fixpoint most_recent_recording (newest_first : list Event) : string :=
  match newest_first with
  | [] => ""
  | StartVisualRecording name :: _ => name
  | _ :: older => most_recent_recording older
  end.

(** The client map name that the most recent map-start request resolved to;
    the empty string when there was none. *)
Fixpoint most_recent_map (newest_first : list Event) : string :=
  match newest_first with
  | [] => ""
  | MapStart recording_name client_map_name :: older =>
      let recording_name :=
        if empty recording_name then most_recent_recording older
        else recording_name in
      if empty client_map_name then "map-from-" +:+ recording_name
      else client_map_name
  | _ :: older => most_recent_map older
  end.

(** The two laser channels. *)
Variant LaserChannel : Set := Laser | Laser2.

(** The scan of an event, when it is a reading on the channel. *)
Definition reading_on (channel : LaserChannel) (ev : Event) : option LaserScan :=
  match channel, ev with
  | Laser, LaserReading msg _ => Some msg
  | Laser2, Laser2Reading msg _ => Some msg
  | _, _ => None
  end.

(** The stamp of the most recent reading on the channel that came without
    a scan time; 0 when there was none. *)
Fixpoint most_recent_unset_stamp (channel : LaserChannel)
    (newest_first : list Event) : Z :=
  match newest_first with
  | [] => 0
  | ev :: older =>
      match reading_on channel ev with
      | Some msg =>
          if Qeq_bool (scan_time msg) 0 then stamp msg
          else most_recent_unset_stamp channel older
      | None => most_recent_unset_stamp channel older
      end
  end.

(** The stamp of the most recent reading on the channel, whatever its scan
    time. *)
Fixpoint most_recent_stamp (channel : LaserChannel)
    (newest_first : list Event) : option Z :=
  match newest_first with
  | [] => None
  | ev :: older =>
      match reading_on channel ev with
      | Some msg => Some (stamp msg)
      | None => most_recent_stamp channel older
      end
  end.

(** Whether the channel had a reading without a scan time. *)
Fixpoint had_unset_reading (channel : LaserChannel)
    (newest_first : list Event) : bool :=
  match newest_first with
  | [] => false
  | ev :: older =>
      match reading_on channel ev with
      | Some msg => Qeq_bool (scan_time msg) 0 || had_unset_reading channel older
      | None => had_unset_reading channel older
      end
  end.

(** The scan time of a reading if it were derived from the reading just
    before it on the channel: unset for the first reading without a scan
    time, the time since the previous reading for the later ones, as it is
    for a reading that has one. *)
Definition scan_time_since_previous_reading (channel : LaserChannel)
    (newest_first : list Event) (msg : LaserScan) : Q :=
  if Qeq_bool (scan_time msg) 0 then
    match most_recent_stamp channel newest_first with
    | Some previous =>
        if had_unset_reading channel newest_first
        then seconds (stamp msg - previous)
        else scan_time msg
    | None => scan_time msg
    end
  else scan_time msg.

(** How many readings of each kind a history holds. *)
Definition laser_readings (history : list Event) : nat :=
  length (filter (λ ev, is_Some (reading_on Laser ev)) history).

Definition laser2_readings (history : list Event) : nat :=
  length (filter (λ ev, is_Some (reading_on Laser2 ev)) history).

Definition is_odometry (ev : Event) : bool :=
  match ev with
  | OdometryReading _ _ => true
  | _ => false
  end.

Definition odometry_readings (history : list Event) : nat :=
  length (filter (λ ev, is_odometry ev = true) history).

(** The scan time that a datagram carries. *)
Definition encoded_scan_time (d : Datagram) : option Q :=
  match d with
  | LaserScanDatagram msg _ => Some (scan_time msg)
  | OdometryDatagram _ _ => None
  end.

(** Scenario 3 of the specification: a scan of 101 ranges from angle 0 in
    steps of 0.01, with as many intensities, that states [angle_max]. *)
Definition scenario_scan (angle_max : float32) : LaserScan :=
  MkLaserScan 0 "laser" (float_of_size_t 0) angle_max (float_of_ratio 1 100)
              0 0 0 0 (replicate 101 1%Q) (replicate 101 0%Q).

(** The test of the diagnosis as the specification words it, on the numbers
    that the fields stand for: the absolute value of angle_min + (N - 1) *
    angle_increment - angle_max is at most that of 0.5 * angle_increment. *)
Definition within_half_an_increment (msg : LaserScan) : option bool :=
  a ← float_value (angle_min msg);
  i ← float_value (angle_increment msg);
  m ← float_value (angle_max msg);
  Some (Qle_bool (Qabs (a + inject_Z (Z.of_nat (length (ranges msg)) - 1) * i - m))
                 (Qabs ((1 # 2) * i))).

End Bridge.

(** ** 4. Sample inputs *)

Module Samples.

(** A channel with records of a count byte followed by that many payload
    bytes; a count of [0xff] is malformed.  The channel publishes the
    payload. *)
Fixpoint read_payload (n : nat) (acc : list byte) : Receiving.Decoder (list byte) :=
  match n with
  | O => Receiving.Emit (rev acc)
  | S n' => Receiving.Read (λ b, read_payload n' (b :: acc))
  end.

Definition counted_record (count : byte) : Receiving.Decoder (list byte) :=
  if Byte.eqb count xff then Receiving.Raise
  else read_payload (Byte.to_nat count) [].

Definition publish_payload (payload : list byte) : list (list byte) := [payload].

(** Two complete records and the beginning of a third, cut inside the
    first and inside the second record, with an empty piece on the way. *)
Definition sample_pieces : list (list byte) :=
  [ [x02; x0a]; [x0b; x01]; []; [x0c; x03; x0d] ].

(** A laser scan with its stamp in seconds and its scan time. *)
Definition scan_at (seconds_of_stamp : Z) (scan_time : Q) : Bridge.LaserScan :=
  Bridge.MkLaserScan (seconds_of_stamp * 1000000000) "laser"
                     (Bridge.float_of_size_t 0) (Bridge.float_of_size_t 1)
                     (Bridge.float_of_ratio 1 100) 0
                     scan_time 0 30 (replicate 101 1%Q) [].

(** Two readings on the laser channel, one second apart; the first brings
    no scan time, the second brings its own. *)
Definition mixed_history : list Bridge.Event :=
  [ Bridge.LaserReading (scan_at 10 0) Bridge.SUCCESS;
    Bridge.LaserReading (scan_at 11 (1 # 10)) Bridge.SUCCESS ].

(** A scan of eight ranges from angle 0 in steps of the [float] nearest to
    0.1, stating 0.75 as its last angle. *)
Definition coarse_scan : Bridge.LaserScan :=
  Bridge.MkLaserScan 0 "laser" (Bridge.float_of_size_t 0) (Bridge.float_of_ratio 3 4)
                     (Bridge.float_of_ratio 1 10) 0 0 0 30 (replicate 8 1%Q) [].

(** A scan without ranges whose angles are both 1 and whose increment is
    [2 ^ -100]. *)
Definition empty_scan : Bridge.LaserScan :=
  Bridge.MkLaserScan 0 "laser" (Bridge.float_of_size_t 1) (Bridge.float_of_size_t 1)
                     (S754_finite false 8388608 (-123)) 0 0 0 30 [] [].

(** A scan without ranges from angle 0 to angle 0 in steps of 0.01. *)
Definition scenario_scan_without_ranges : Bridge.LaserScan :=
  Bridge.MkLaserScan 0 "laser" (Bridge.float_of_size_t 0) (Bridge.float_of_size_t 0)
                     (Bridge.float_of_ratio 1 100) 0 0 0 30 [] [].


End Samples.

(** ** 5. Parts of a history and of the traces *)

Module Traces.
Import Bridge.

(** The events that are sensor readings, and the others: the seed topic,
    the services and the session timer. *)
Definition is_reading (ev : Event) : bool :=
  match ev with
  | LaserReading _ _ | Laser2Reading _ _ | OdometryReading _ _ => true
  | _ => false
  end.

Definition is_request (ev : Event) : bool := negb (is_reading ev).

(** The events whose callback can get to the session client, by a call of
    its own or through [get_config_entry], which [checkLaserScan] asks after
    a failed send and which is not among the sources.  The others are the
    odometry readings and the laser and laser2 readings whose send did not
    fail. *)
Definition may_reach_the_client (ev : Event) : bool :=
  match ev with
  | LaserReading _ SUCCESS | Laser2Reading _ SUCCESS | OdometryReading _ _ => false
  | _ => true
  end.

(** The keys that the callbacks set in a session query before a call. *)
Definition keys_set_by_callbacks : list string :=
  [ "clientMapName"; "recordingName"; "enforceSeed"; "seedPose" ].

(** What is left of a node for the readings of one channel, and for the
    requests. *)
Definition laser_view (st : Node) : Z * Z * list Datagram :=
  (scan_num_ st, prev_laser_timestamp_ st, laser_sent st).

Definition laser2_view (st : Node) : Z * Z * list Datagram :=
  (scan2_num_ st, prev_laser2_timestamp_ st, laser2_sent st).

Definition odom_view (st : Node) : Z * list Datagram :=
  (odom_num_ st, odom_sent st).

Definition request_view (st : Node) : string * string * list RpcEvent :=
  (last_recording_name_ st, last_map_name_ st, rpc st).

(** The lines that one event adds to the log, read off the event alone. *)
Definition event_lines (get_config_entry : string → option string)
    (ev : Event) : list LogEntry :=
  match ev with
  | LaserReading msg IO_EXCEPTION => checkLaserScan get_config_entry msg "laser"
  | Laser2Reading msg IO_EXCEPTION => checkLaserScan get_config_entry msg "laser2"
  | SetSeed msg =>
      if String.eqb (seed_frame_id msg) MAP_FRAME_ID then []
      else [ Error ("2D Pose Estimate sent in wrong frame! Is: "
                    +:+ seed_frame_id msg +:+ " but should be " +:+ MAP_FRAME_ID) ]
  | _ => []
  end.

End Traces.

(** ** 6. Start and end of the node ([locator_bridge_node.cpp]) *)

Module Startup.

(** [rclcpp::ParameterType]. *)
Variant ParameterType : Set :=
  | PARAMETER_NOT_SET
  | PARAMETER_BOOL
  | PARAMETER_INTEGER
  | PARAMETER_DOUBLE
  | PARAMETER_STRING
  | PARAMETER_BYTE_ARRAY
  | PARAMETER_BOOL_ARRAY
  | PARAMETER_INTEGER_ARRAY
  | PARAMETER_DOUBLE_ARRAY
  | PARAMETER_STRING_ARRAY.

(** [rclcpp::Parameter]: a value of one of the types. *)
Variant RosParameter : Type :=
  | NotSet
  | PBool (b : bool)
  | PInteger (i : Z)
  | PDouble (d : Q)
  | PString (s : string)
  | PByteArray (l : list byte)
  | PBoolArray (l : list bool)
  | PIntegerArray (l : list Z)
  | PDoubleArray (l : list Q)
  | PStringArray (l : list string).

Definition get_type (p : RosParameter) : ParameterType :=
  match p with
  | NotSet => PARAMETER_NOT_SET
  | PBool _ => PARAMETER_BOOL
  | PInteger _ => PARAMETER_INTEGER
  | PDouble _ => PARAMETER_DOUBLE
  | PString _ => PARAMETER_STRING
  | PByteArray _ => PARAMETER_BYTE_ARRAY
  | PBoolArray _ => PARAMETER_BOOL_ARRAY
  | PIntegerArray _ => PARAMETER_INTEGER_ARRAY
  | PDoubleArray _ => PARAMETER_DOUBLE_ARRAY
  | PStringArray _ => PARAMETER_STRING_ARRAY
  end.

(** An entry of the config document ([Poco::Dynamic::Var]): empty, or one
    of the values that the node assigns. *)
Variant Var : Type :=
  | DynEmpty
  | DynBool (b : bool)
  | DynInt (i : Z)
  | DynDouble (d : Q)
  | DynString (s : string)
  | DynBoolArray (l : list bool)
  | DynIntArray (l : list Z)
  | DynDoubleArray (l : list Q)
  | DynStringArray (l : list string).

(** The [switch] of [syncConfig]: what is assigned to the entry, if the
    type of the parameter is one of its cases. *)
Definition stored (p : RosParameter) : option Var :=
  match p with
  | PBool b => Some (DynBool b)
  | PInteger i => Some (DynInt i)
  | PDouble d => Some (DynDouble d)
  | PString s => Some (DynString s)
  | PBoolArray l => Some (DynBoolArray l)
  | PIntegerArray l => Some (DynIntArray l)
  | PDoubleArray l => Some (DynDoubleArray l)
  | PStringArray l => Some (DynStringArray l)
  | NotSet | PByteArray _ => None
  end.

(** The body of the [std::for_each] over the parameters: the document and
    the warnings ("Parameter type ... is unsupported for Locator config!",
    kept as the type they name) after one of them. *)
Definition override (state : gmap string Var * list ParameterType)
    (param : string * RosParameter) : gmap string Var * list ParameterType :=
  match stored param.2 with
  | Some value => (<[param.1 := value]> state.1, state.2)
  | None => (state.1, state.2 ++ [get_type param.2])
  end.

(** "overwrite current locator config with ros params". *)
Definition apply_overrides (loc_client_config : gmap string Var)
    (locator_parameters : list (string * RosParameter)) :
    gmap string Var * list ParameterType :=
  foldl override (loc_client_config, []) locator_parameters.

(** [loc_client_config[key]] on the document that is not [const]: the
    entry, which is put in empty when the document has none. *)
Definition index (key : string) (doc : gmap string Var) : Var * gmap string Var :=
  match doc !! key with
  | Some value => (value, doc)
  | None => (DynEmpty, <[key := DynEmpty]> doc)
  end.

(** What [syncConfig] leaves: the three flags, the document handed to
    [setConfigList], the warnings. *)
Record SyncResult : Type := MkSyncResult {
  provide_laser_data_ : bool;
  provide_laser2_data_ : bool;
  provide_odometry_data_ : bool;
  written : gmap string Var;
  warnings : list ParameterType
}.

(** What [init] does that can be seen from outside, in order. *)
Variant Callback : Set :=
  | SeedCallback | LaserCallback | Laser2Callback | OdomCallback.

Variant SendingChannel : Set := SendLaser | SendLaser2 | SendOdometry.

Variant ReceivingChannel : Set :=
  | ClientControlMode
  | ClientMapMap
  | ClientMapVisualization
  | ClientRecordingMap
  | ClientRecordingVisualization
  | ClientLocalizationMap
  | ClientLocalizationVisualization
  | ClientLocalizationPose
  | ClientGlobalAlignVisualization.

Variant Action : Type :=
  | Login
  | StartRefreshTimer
  | GetAboutModules
  | GetConfigList
  | SetConfigList (doc : gmap string Var)
  | CreateService (name : string)
  | Subscribe (callback : Callback) (topic : string)
  | StartSending (channel : SendingChannel) (port : option Z)
  | StartReceiving (channel : ReceivingChannel).

Variant Exception : Type :=
  | RuntimeError (what : string)
  | RenderingFailed.      (* what [toString] throws *)

(** A node after [init]: what it did, what it threw if it did not return,
    and which of its sending interfaces it has set. *)
Record Outcome : Type := MkOutcome {
  actions : list Action;
  thrown : option Exception;
  laser_sending_interface_ : bool;
  laser2_sending_interface_ : bool;
  odom_sending_interface_ : bool
}.

(** The services of [init], in the order it creates them. *)
Definition service_names : list string :=
  [ "~/get_config_entry";
    "~/start_visual_recording";
    "~/stop_visual_recording";
    "~/start_map";
    "~/stop_map";
    "~/start_localization";
    "~/stop_localization";
    "~/send_map";
    "~/set_map";
    "~/list_client_maps" ].

(** [setupBinaryReceiverInterfaces], in the order it starts them. *)
Definition setupBinaryReceiverInterfaces : list Action :=
  StartReceiving <$>
    [ ClientControlMode; ClientMapMap; ClientMapVisualization;
      ClientRecordingMap; ClientRecordingVisualization; ClientLocalizationMap;
      ClientLocalizationVisualization; ClientLocalizationPose;
      ClientGlobalAlignVisualization ].

(** [~LocatorBridgeNode]: the sending interfaces it stops, in order.  The
    laser interface is reached through its pointer without a test; [None]
    stands for doing so when the pointer was never set. *)
Definition destructor (node : Outcome) : option (list SendingChannel) :=
  if laser_sending_interface_ node then
    Some ([SendLaser]
          ++ (if laser2_sending_interface_ node then [SendLaser2] else [])
          ++ (if odom_sending_interface_ node then [SendOdometry] else []))
  else None.

Section Sync.

(** [toString] of an entry, [None] when it throws instead.  It is a
    function of the library and a parameter here. *)
Variable toString : Var → option string.

(** [loc_client_config[key].toString()], with the document as the
    subscript leaves it. *)
Definition text_at (key : string) (doc : gmap string Var) :
    option (string * gmap string Var) :=
  let '(value, doc) := index key doc in
  text ← toString value; Some (text, doc).

(** [syncConfig] on the document that [getConfigList] returned; [None] when
    an exception leaves it.  After the overrides every entry is rendered for
    the log; then the four entries are read that settle the flags (the type
    of laser2 is rendered in both branches, for the condition or for the
    log); then the document goes to [setConfigList]. *)
Definition syncConfig (loc_client_config : gmap string Var)
    (locator_parameters : list (string * RosParameter)) : option SyncResult :=
  let '(doc, warnings) := apply_overrides loc_client_config locator_parameters in
  if bool_decide (map_Forall (λ _ value, is_Some (toString value)) doc) then
    '(laser_type, doc) ← text_at "ClientSensor.laser.type" doc;
    '(enable_laser2, doc) ← text_at "ClientSensor.enableLaser2" doc;
    '(laser2_type, doc) ← text_at "ClientSensor.laser2.type" doc;
    '(enable_odometry, doc) ← text_at "ClientSensor.enableOdometry" doc;
    Some (MkSyncResult
            (String.eqb laser_type "simple")
            (String.eqb enable_laser2 "true" && String.eqb laser2_type "simple")
            (String.eqb enable_odometry "true")
            doc warnings)
  else None.

(** A string parameter of the node with its default, as
    [get_parameter(name, variable)] leaves the variable. *)
Definition topic_parameter (string_parameters : gmap string string)
    (name initial : string) : string :=
  match string_parameters !! name with
  | Some value => value
  | None => initial
  end.

(** [init] with what the appliance answers ([module_versions],
    [loc_client_config]) and the parameters of the node. *)
Definition init (module_versions : gmap string (Z * Z))
    (loc_client_config : gmap string Var)
    (locator_parameters : list (string * RosParameter))
    (string_parameters : gmap string string)
    (int_parameters : gmap string Z) : Outcome :=
  let begun := [Login; StartRefreshTimer; GetAboutModules] in
  if negb (Versions.check_module_versions module_versions) then
    MkOutcome begun
              (Some (RuntimeError "locator software incompatible with this bridge!"))
              false false false
  else
    match syncConfig loc_client_config locator_parameters with
    | None => MkOutcome (begun ++ [GetConfigList]) (Some RenderingFailed)
                        false false false
    | Some sync =>
        let laser :=
          if provide_laser_data_ sync then
            [ StartSending SendLaser (int_parameters !! "laser_datagram_port");
              Subscribe LaserCallback
                        (topic_parameter string_parameters "scan_topic" "/scan") ]
          else [] in
        let laser2 :=
          if provide_laser2_data_ sync then
            [ StartSending SendLaser2 (int_parameters !! "laser2_datagram_port");
              Subscribe Laser2Callback
                        (topic_parameter string_parameters "scan2_topic" "/scan2") ]
          else [] in
        let odom :=
          if provide_odometry_data_ sync then
            [ StartSending SendOdometry (int_parameters !! "odom_datagram_port");
              Subscribe OdomCallback
                        (topic_parameter string_parameters "odom_topic" "/odom") ]
          else [] in
        MkOutcome
          (begun ++ [GetConfigList; SetConfigList (written sync)]
           ++ (CreateService <$> service_names)
           ++ [Subscribe SeedCallback "/initialpose"]
           ++ laser ++ laser2 ++ odom
           ++ setupBinaryReceiverInterfaces)
          None
          (provide_laser_data_ sync)
          (provide_laser2_data_ sync)
          (provide_odometry_data_ sync)
    end.

End Sync.

End Startup.

(** ** 7. The receiving channels ([receiving_interface.cpp]) *)

Module Channels.
Import Receiving.

Section Outputs.

(** The message types that the converters fill in are kept abstract; poses
    and transforms are those of the localization pose channel. *)
Variable double : Type.
Variable zero : double.
Variable ControlModeMsg PointCloud2 PoseArray : Type.
Variable MapVisualizationMsg RecordingVisualizationMsg : Type.
Variable LocalizationVisualizationMsg LocalizationPoseMsg : Type.
Variable GlobalAlignVisualizationMsg : Type.
Variable LASER_FRAME_ID : string.

(** A message as a publisher takes it. *)
Variant payload : Type :=
  | ControlMode (m : ControlModeMsg)
  | Cloud (c : PointCloud2)
  | Poses (p : PoseArray)
  | StampedPose (p : PoseStamped double)
  | CovariancePose (p : PoseWithCovarianceStamped double)
  | MapVisualization (m : MapVisualizationMsg)
  | RecordingVisualization (m : RecordingVisualizationMsg)
  | LocalizationVisualization (m : LocalizationVisualizationMsg)
  | LocalizationPose (m : LocalizationPoseMsg)
  | GlobalAlignVisualization (m : GlobalAlignVisualizationMsg).

(** What a channel does with a record: publish on the topic of one of its
    publishers, or send a transform through the broadcaster. *)
Variant output : Type :=
  | Publish (topic : string) (message : payload)
  | SendTransform (t : TransformStamped double).

(** [ClientControlModeInterface::tryToParseData]. *)
Definition ClientControlMode_publish (client_control_mode : ControlModeMsg) :
    list output :=
  [ Publish "~/client_control_mode" (ControlMode client_control_mode) ].

(** [ClientMapMapInterface::tryToParseData]. *)
Definition ClientMapMap_publish (map : PointCloud2) : list output :=
  [ Publish "~/client_map_map" (Cloud map) ].

(** [ClientMapVisualizationInterface::tryToParseData]. *)
Definition ClientMapVisualization_publish
    (record : MapVisualizationMsg * PoseStamped double * PointCloud2 * PoseArray) :
    list output :=
  let '(client_map_visualization, pose, scan, path_poses) := record in
  [ SendTransform (publishTransform double pose MAP_FRAME_ID LASER_FRAME_ID);
    Publish "~/client_map_visualization" (MapVisualization client_map_visualization);
    Publish "~/client_map_visualization/pose" (StampedPose pose);
    Publish "~/client_map_visualization/scan" (Cloud scan);
    Publish "~/client_map_visualization/path_poses" (Poses path_poses) ].

(** [ClientRecordingMapInterface::tryToParseData]. *)
Definition ClientRecordingMap_publish (map : PointCloud2) : list output :=
  [ Publish "~/client_recording_map" (Cloud map) ].

(** [ClientRecordingVisualizationInterface::tryToParseData]. *)
Definition ClientRecordingVisualization_publish
    (record : RecordingVisualizationMsg * PoseStamped double * PointCloud2 * PoseArray) :
    list output :=
  let '(client_recording_visualization, pose, scan, path_poses) := record in
  [ SendTransform (publishTransform double pose MAP_FRAME_ID LASER_FRAME_ID);
    Publish "~/client_recording_visualization"
            (RecordingVisualization client_recording_visualization);
    Publish "~/client_recording_visualization/pose" (StampedPose pose);
    Publish "~/client_recording_visualization/scan" (Cloud scan);
    Publish "~/client_recording_visualization/path_poses" (Poses path_poses) ].

(** [ClientLocalizationMapInterface::tryToParseData]. *)
Definition ClientLocalizationMap_publish (map : PointCloud2) : list output :=
  [ Publish "~/client_localization_map" (Cloud map) ].

(** [ClientLocalizationVisualizationInterface::tryToParseData]. *)
Definition ClientLocalizationVisualization_publish
    (record : LocalizationVisualizationMsg * PoseStamped double * PointCloud2) :
    list output :=
  let '(client_localization_visualization, pose, scan) := record in
  [ Publish "~/client_localization_visualization"
            (LocalizationVisualization client_localization_visualization);
    Publish "~/client_localization_visualization/pose" (StampedPose pose);
    Publish "~/client_localization_visualization/scan" (Cloud scan) ].

(** [ClientLocalizationPoseInterface::tryToParseData], with the topics of
    its publishers. *)
Definition ClientLocalizationPose_publish
    (record : Decoded double LocalizationPoseMsg) : list output :=
  let poseWithCov :=
    MkPoseWithCovarianceStamped double
      (ps_header double (pose double LocalizationPoseMsg record))
      (ps_pose double (pose double LocalizationPoseMsg record))
      (pack_covariance double zero (covariance double LocalizationPoseMsg record)) in
  [ SendTransform (publishTransform double (pose double LocalizationPoseMsg record)
                                    MAP_FRAME_ID LASER_FRAME_ID);
    Publish "~/client_localization_pose"
            (LocalizationPose (client_localization_pose double LocalizationPoseMsg record));
    Publish "~/client_localization_pose/pose" (CovariancePose poseWithCov);
    Publish "~/client_localization_pose/lidar_odo_pose"
            (StampedPose (lidar_odo_pose double LocalizationPoseMsg record)) ].

(** [ClientGlobalAlignVisualizationInterface::tryToParseData]. *)
Definition ClientGlobalAlignVisualization_publish
    (record : GlobalAlignVisualizationMsg * PoseArray * PoseArray) : list output :=
  let '(client_global_align_visualization, poses, landmark_poses) := record in
  [ Publish "~/client_global_align_visualization"
            (GlobalAlignVisualization client_global_align_visualization);
    Publish "~/client_global_align_visualization/poses" (Poses poses);
    Publish "~/client_global_align_visualization/landmarks/poses"
            (Poses landmark_poses) ].

(** What the converter of each channel hands back for one record. *)
Definition decoded (channel : Startup.ReceivingChannel) : Type :=
  match channel with
  | Startup.ClientControlMode => ControlModeMsg
  | Startup.ClientMapMap => PointCloud2
  | Startup.ClientMapVisualization =>
      MapVisualizationMsg * PoseStamped double * PointCloud2 * PoseArray
  | Startup.ClientRecordingMap => PointCloud2
  | Startup.ClientRecordingVisualization =>
      RecordingVisualizationMsg * PoseStamped double * PointCloud2 * PoseArray
  | Startup.ClientLocalizationMap => PointCloud2
  | Startup.ClientLocalizationVisualization =>
      LocalizationVisualizationMsg * PoseStamped double * PointCloud2
  | Startup.ClientLocalizationPose => Decoded double LocalizationPoseMsg
  | Startup.ClientGlobalAlignVisualization =>
      GlobalAlignVisualizationMsg * PoseArray * PoseArray
  end%type.

(** The rest of [tryToParseData] of each channel. *)
Definition publish_of (channel : Startup.ReceivingChannel) :
    decoded channel → list output :=
  match channel with
  | Startup.ClientControlMode => ClientControlMode_publish
  | Startup.ClientMapMap => ClientMapMap_publish
  | Startup.ClientMapVisualization => ClientMapVisualization_publish
  | Startup.ClientRecordingMap => ClientRecordingMap_publish
  | Startup.ClientRecordingVisualization => ClientRecordingVisualization_publish
  | Startup.ClientLocalizationMap => ClientLocalizationMap_publish
  | Startup.ClientLocalizationVisualization => ClientLocalizationVisualization_publish
  | Startup.ClientLocalizationPose => ClientLocalizationPose_publish
  | Startup.ClientGlobalAlignVisualization => ClientGlobalAlignVisualization_publish
  end.

(** The topics of the publishers that the constructor of each channel
    creates. *)
Definition topics_of (channel : Startup.ReceivingChannel) : list string :=
  match channel with
  | Startup.ClientControlMode => [ "~/client_control_mode" ]
  | Startup.ClientMapMap => [ "~/client_map_map" ]
  | Startup.ClientMapVisualization =>
      [ "~/client_map_visualization"; "~/client_map_visualization/pose";
        "~/client_map_visualization/scan"; "~/client_map_visualization/path_poses" ]
  | Startup.ClientRecordingMap => [ "~/client_recording_map" ]
  | Startup.ClientRecordingVisualization =>
      [ "~/client_recording_visualization"; "~/client_recording_visualization/pose";
        "~/client_recording_visualization/scan";
        "~/client_recording_visualization/path_poses" ]
  | Startup.ClientLocalizationMap => [ "~/client_localization_map" ]
  | Startup.ClientLocalizationVisualization =>
      [ "~/client_localization_visualization";
        "~/client_localization_visualization/pose";
        "~/client_localization_visualization/scan" ]
  | Startup.ClientLocalizationPose =>
      [ "~/client_localization_pose"; "~/client_localization_pose/pose";
        "~/client_localization_pose/lidar_odo_pose" ]
  | Startup.ClientGlobalAlignVisualization =>
      [ "~/client_global_align_visualization";
        "~/client_global_align_visualization/poses";
        "~/client_global_align_visualization/landmarks/poses" ]
  end.

(** The channels whose [tryToParseData] calls [publishTransform]. *)
Definition broadcasts (channel : Startup.ReceivingChannel) : bool :=
  match channel with
  | Startup.ClientMapVisualization
  | Startup.ClientRecordingVisualization
  | Startup.ClientLocalizationPose => true
  | _ => false
  end.

Definition is_transform (o : output) : bool :=
  match o with
  | SendTransform _ => true
  | Publish _ _ => false
  end.

(** An output that fits its channel: a message on a topic of one of the
    publishers of the channel, or a transform from the map frame to the
    laser frame on a channel that broadcasts. *)
Definition fits (channel : Startup.ReceivingChannel) (o : output) : Prop :=
  match o with
  | Publish topic _ => topic ∈ topics_of channel
  | SendTransform t =>
      broadcasts channel = true
      ∧ frame_id (tf_header double t) = MAP_FRAME_ID
      ∧ child_frame_id double t = LASER_FRAME_ID
  end.

End Outputs.

End Channels.

(** ** 8. More sample inputs *)

Module MoreSamples.
Import Startup.

(** A rendering for the samples: text and truth values as they read, an
    empty entry not at all, everything else as a mark of its kind. *)
Definition render (value : Var) : option string :=
  match value with
  | DynEmpty => None
  | DynBool true => Some "true"
  | DynBool false => Some "false"
  | DynString s => Some s
  | DynInt _ => Some "<int>"
  | DynDouble _ => Some "<double>"
  | _ => Some "<array>"
  end.

(** The config of an appliance with a laser of its own and no second laser
    or odometry. *)
Definition appliance_config : gmap string Var :=
  list_to_map
    [ ("ClientSensor.laser.type", DynString "sick");
      ("ClientSensor.enableLaser2", DynBool false);
      ("ClientSensor.laser2.type", DynString "simple");
      ("ClientSensor.enableOdometry", DynBool false);
      ("ClientLocalization.activeMapName", DynString "hall") ].

(** Parameters of the node that make the bridge the source of the laser
    and odometry data; one of them has no value. *)
Definition node_overrides : list (string * RosParameter) :=
  [ ("ClientSensor.enableOdometry", PBool true);
    ("ClientSensor.laser.type", PString "simple");
    ("ClientSensor.odometry.note", NotSet) ].

End MoreSamples.

(** * Properties *)

(** ** 1. Module version check *)

Section VersionFacts.
Import Versions.

Lemma version_ok_true actual required :
  version_ok actual required = true ↔
  actual.1 = required.1 ∧ required.2 ≤ actual.2.
Proof.
  unfold version_ok. rewrite andb_true_iff, Z.eqb_eq, Z.geb_le. tauto.
Qed.

Lemma version_ok_false actual required :
  version_ok actual required = false ↔
  actual.1 ≠ required.1 ∨ actual.2 < required.2.
Proof.
  unfold version_ok. rewrite andb_false_iff, Z.eqb_neq.
  rewrite <- not_true_iff_false, Z.geb_le. lia.
Qed.

Lemma check_against_true required module_versions :
  check_against required module_versions = true ↔
  ∀ entry, entry ∈ required → satisfied module_versions entry.
Proof.
  induction required as [|[name req] more IH]; simpl.
  - split; [intros _ entry Hin; inversion Hin | done].
  - split.
    + intros Hcheck entry Hin.
      destruct (module_versions !! name) as [[amaj amin]|] eqn:Hlook; [|done].
      destruct (version_ok (amaj, amin) req) eqn:Hok; [|done].
      apply elem_of_cons in Hin as [->|Hin].
      * apply version_ok_true in Hok as [? ?]. by exists amaj, amin.
      * by apply IH.
    + intros Hall.
      destruct (Hall (name, req)) as (amaj & amin & Hlook & Hmaj & Hmin);
        [left|]. simpl in Hlook, Hmaj, Hmin. rewrite Hlook.
      assert (version_ok (amaj, amin) req = true) as ->
        by (apply version_ok_true; done).
      apply IH. intros entry Hin. apply Hall. by right.
Qed.

Lemma check_against_false required module_versions :
  check_against required module_versions = false ↔
  ∃ entry, entry ∈ required ∧ offending module_versions entry.
Proof.
  induction required as [|[name req] more IH]; simpl.
  - split; [done | intros (entry & Hin & _); inversion Hin].
  - destruct (module_versions !! name) as [[amaj amin]|] eqn:Hlook.
    + destruct (version_ok (amaj, amin) req) eqn:Hok.
      * rewrite IH. split.
        -- intros (entry & Hin & Hoff). exists entry. split; [by right|done].
        -- intros (entry & Hin & Hoff).
           apply elem_of_cons in Hin as [->|Hin]; [|by exists entry].
           apply version_ok_true in Hok as [Hmaj Hmin]. simpl in *.
           destruct Hoff as [Hnone|(a & b & Hsome & Hbad)]; simpl in *.
           ++ congruence.
           ++ rewrite Hlook in Hsome. injection Hsome as <- <-. lia.
      * split; [intros _ | done].
        exists (name, req). split; [left|]. right.
        exists amaj, amin. split; [done|]. by apply version_ok_false in Hok.
    + split; [intros _ | done].
      exists (name, req). split; [left|]. by left.
Qed.

(** Only the reports about the registry's own modules matter. *)
Lemma check_against_agree required (reported reported' : gmap string version) :
  (∀ name, name ∈ required.*1 → reported !! name = reported' !! name) →
  check_against required reported = check_against required reported'.
Proof.
  induction required as [|[name req] more IH]; simpl; [done|].
  intros Hagree. rewrite <- (Hagree name) by left.
  destruct (reported !! name); [|done].
  destruct (version_ok _ _); [|done].
  apply IH. intros other Hin. apply Hagree. by right.
Qed.

(** C2.  The version check answers [true] exactly when every module of the
    static registry is reported with the required major version and a minor
    version at least the required one; it answers [false] exactly when some
    required module is missing, has another major version, or has a smaller
    minor version; and two reports that say the same about the modules of
    the registry get the same answer, whatever else they list, so that one
    more module outside the registry never changes it. *)
Theorem check_module_versions_decides (module_versions : gmap string version) :
  (check_module_versions module_versions = true ↔
     ∀ entry, entry ∈ REQUIRED_MODULE_VERSIONS → satisfied module_versions entry)
  ∧ (check_module_versions module_versions = false ↔
     ∃ entry, entry ∈ REQUIRED_MODULE_VERSIONS ∧ offending module_versions entry)
  ∧ (∀ other : gmap string version,
       (∀ name, name ∈ REQUIRED_MODULE_VERSIONS.*1 →
                module_versions !! name = other !! name) →
       check_module_versions other = check_module_versions module_versions)
  ∧ (∀ extra v, extra ∉ REQUIRED_MODULE_VERSIONS.*1 →
       check_module_versions (<[extra := v]> module_versions)
       = check_module_versions module_versions).
Proof.
  unfold check_module_versions. split; [|split; [|split]].
  - apply check_against_true.
  - apply check_against_false.
  - intros other Hagree. symmetry. by apply check_against_agree.
  - intros extra v Hnot. apply check_against_agree.
    intros name Hin. rewrite lookup_insert_ne; [done|]. by intros ->.
Qed.

(** Scenario 1 of the specification: registry {Session: (3,1)}, reported
    {Session: (3,1)}. *)
Example session_3_1_passes :
  check_against [("Session", (3, 1))] {[ "Session" := (3, 1) ]} = true.
Proof. reflexivity. Qed.

(** Scenario 2: the reported minor version is too low. *)
Example session_3_0_fails :
  check_against [("Session", (3, 1))] {[ "Session" := (3, 0) ]} = false.
Proof. reflexivity. Qed.

(** A report that fits the whole static registry, with a newer minor version of
    one module and one unregistered module. *)
Example full_report_passes :
  check_module_versions
    (<["ClientUser" := (4, 0)]> (<["Session" := (3, 7)]>
       (list_to_map REQUIRED_MODULE_VERSIONS))) = true.
Proof. vm_compute. reflexivity. Qed.

End VersionFacts.

(** ** 2. The telemetry receiving interfaces *)

Section ChannelFacts.
Import Receiving.

Context {M Out : Type}.
Variable convert : byte → Decoder M.
Variable publish : M → list Out.

(** *** One decode attempt *)

Lemma readRecord_more (d : Decoder M) buf more m rest :
  readRecord d buf = Parsed m rest →
  readRecord d (buf ++ more) = Parsed m (rest ++ more).
Proof.
  revert buf. induction d as [m'|k IH|]; intros buf; simpl.
  - by intros [= <- <-].
  - destruct buf as [|b buf]; [done|]. apply IH.
  - done.
Qed.

Lemma readRecord_more_failed (d : Decoder M) buf more rest :
  readRecord d buf = Failed rest →
  readRecord d (buf ++ more) = Failed (rest ++ more).
Proof.
  revert buf. induction d as [m'|k IH|]; intros buf; simpl.
  - done.
  - destruct buf as [|b buf]; [done|]. apply IH.
  - by intros [= <-].
Qed.

Lemma readRecord_rest_length (d : Decoder M) buf m rest :
  readRecord d buf = Parsed m rest → (length rest ≤ length buf)%nat.
Proof.
  revert buf. induction d as [m'|k IH|]; intros buf; simpl.
  - by intros [= <- <-].
  - destruct buf as [|b buf]; [done|]. intros H%IH. simpl. lia.
  - done.
Qed.

Lemma record_has_a_byte buf m rest :
  readRecord (Read convert) buf = Parsed m rest → (length rest < length buf)%nat.
Proof.
  destruct buf as [|b buf]; simpl; [done|].
  intros H%readRecord_rest_length. lia.
Qed.

(** *** The loop on the bare buffer *)

Lemma drain_fuel n n' buf :
  (length buf ≤ n)%nat → (length buf ≤ n')%nat →
  drain convert n buf = drain convert n' buf.
Proof.
  revert n' buf. induction n as [|n IH]; intros n' buf Hn Hn'.
  - destruct buf; [|simpl in Hn; lia]. by destruct n'.
  - destruct n' as [|n'].
    + destruct buf; [done | simpl in Hn'; lia].
    + destruct buf as [|b buf]; [done|].
      change (drain convert (S n) (b :: buf)) with
        (match readRecord (Read convert) (b :: buf) with
         | Parsed m rest =>
             let '(c, ms, leftover) := drain convert n rest in (c, m :: ms, leftover)
         | Incomplete => (IosFailure, [], b :: buf)
         | Failed rest => (OtherException, [], rest)
         end).
      change (drain convert (S n') (b :: buf)) with
        (match readRecord (Read convert) (b :: buf) with
         | Parsed m rest =>
             let '(c, ms, leftover) := drain convert n' rest in (c, m :: ms, leftover)
         | Incomplete => (IosFailure, [], b :: buf)
         | Failed rest => (OtherException, [], rest)
         end).
      destruct (readRecord (Read convert) (b :: buf)) as [m rest| |rest] eqn:Hrec;
        [|done|done].
      apply record_has_a_byte in Hrec. simpl in Hn, Hn', Hrec.
      rewrite (IH n' rest) by lia. done.
Qed.

Lemma drained_nil : drained convert [] = (Normal, [], []).
Proof. done. Qed.

Lemma drained_step buf :
  buf ≠ [] →
  drained convert buf =
  match readRecord (Read convert) buf with
  | Parsed m rest =>
      let '(c, ms, leftover) := drained convert rest in (c, m :: ms, leftover)
  | Incomplete => (IosFailure, [], buf)
  | Failed rest => (OtherException, [], rest)
  end.
Proof.
  destruct buf as [|b buf]; [done|]. intros _. unfold drained.
  change (drain convert (length (b :: buf)) (b :: buf)) with
    (match readRecord (Read convert) (b :: buf) with
     | Parsed m rest =>
         let '(c, ms, leftover) := drain convert (length buf) rest in
         (c, m :: ms, leftover)
     | Incomplete => (IosFailure, [], b :: buf)
     | Failed rest => (OtherException, [], rest)
     end).
  destruct (readRecord (Read convert) (b :: buf)) as [m rest| |rest] eqn:Hrec;
    [|done|done].
  apply record_has_a_byte in Hrec. simpl in Hrec.
  rewrite (drain_fuel (length buf) (length rest) rest) by lia. done.
Qed.

(** More bytes behind a buffer that the loop left without a decode error:
    the loop decodes the same values first and then goes on with what it had
    left and the new bytes. *)
Lemma drained_more buf more :
  (drained convert buf).1.1 ≠ OtherException →
  drained convert (buf ++ more) =
  let '(_, ms, leftover) := drained convert buf in
  let '(c, ms', leftover') := drained convert (leftover ++ more) in
  (c, ms ++ ms', leftover').
Proof.
  remember (length buf) as n eqn:Hn. revert buf Hn.
  induction n as [n IH] using lt_wf_ind. intros buf -> Hok.
  destruct buf as [|b buf].
  - rewrite drained_nil. simpl. by destruct (drained convert more) as [[c ms] l].
  - rewrite (drained_step (b :: buf)) in Hok |- * by done.
    rewrite (drained_step ((b :: buf) ++ more)) by done.
    destruct (readRecord (Read convert) (b :: buf)) as [m rest| |rest] eqn:Hrec.
    + rewrite (readRecord_more _ _ more _ _ Hrec).
      pose proof (record_has_a_byte _ _ _ Hrec) as Hlen.
      specialize (IH (length rest) Hlen rest eq_refl).
      destruct (drained convert rest) as [[c ms] leftover] eqn:Hrest.
      simpl in Hok. rewrite IH by done.
      by destruct (drained convert (leftover ++ more)) as [[c' ms'] leftover'].
    + rewrite <- (drained_step ((b :: buf) ++ more)) by done.
      by destruct (drained convert ((b :: buf) ++ more)) as [[c' ms'] leftover'].
    + done.
Qed.



(** What the loop leaves when it is run twice on the same bytes: nothing
    more is decoded the second time. *)
Lemma drained_again buf :
  (drained convert buf).1.1 ≠ OtherException →
  drained convert (drained convert buf).2
  = ((drained convert buf).1.1, [], (drained convert buf).2).
Proof.
  intros Hok. pose proof (drained_more buf [] Hok) as Hmore.
  rewrite app_nil_r in Hmore.
  destruct (drained convert buf) as [[c ms] leftover]. simpl in *.
  rewrite app_nil_r in Hmore.
  destruct (drained convert leftover) as [[c' ms'] leftover'].
  injection Hmore as -> Hms ->.
  rewrite <- (app_nil_r ms) in Hms at 1. by apply app_inv_head in Hms as <-.
Qed.

(** *** The loop and the handler on the interface *)


Lemma settle_nothing st : settle publish [] (unread st) st = st.
Proof. destruct st. unfold settle. simpl. by rewrite app_nil_r. Qed.

Lemma parse_loop_drain fuel st :
  parse_loop convert publish fuel st =
  let '(c, ms, leftover) := drain convert fuel (unread st) in
  (c, settle publish ms leftover st).
Proof.
  revert st. induction fuel as [|fuel IH]; intros st.
  - simpl. by rewrite settle_nothing.
  - simpl. unfold available, tryToParseData.
    destruct (unread st) as [|b buf] eqn:Hbuf; simpl.
    { by rewrite <- Hbuf, settle_nothing. }
    destruct (readRecord (convert b) buf) as [m rest| |rest].
    + rewrite IH. simpl.
      destruct (drain convert fuel rest) as [[c ms] leftover].
      unfold settle. simpl. by rewrite app_assoc.
    + by rewrite <- Hbuf, settle_nothing.
    + unfold settle, set_unread. simpl. by rewrite app_nil_r.
Qed.

(** The bound that [try_block] gives the loop is enough: a larger one changes
    nothing. *)
Lemma parse_loop_fuel n st :
  (available st ≤ n)%nat →
  parse_loop convert publish n st
  = parse_loop convert publish (available st) st.
Proof.
  intros Hn. rewrite !parse_loop_drain. unfold available in *.
  by rewrite (drain_fuel n (length (unread st))).
Qed.

Lemma try_block_drained st :
  ∃ st0, try_block convert publish st =
         ((drained convert (unread st)).1.1,
          settle publish (drained convert (unread st)).1.2
                 (drained convert (unread st)).2 st0)
  ∧ unread st0 = unread st ∧ published st0 = published st
  ∧ log st0 = log st ∧ reactor_stopped st0 = reactor_stopped st
  ∧ socket_shut_down st0 = socket_shut_down st.
Proof.
  unfold try_block, available.
  destruct (unread st) as [|b buf] eqn:Hbuf.
  - exists (add_console "received msg of length 0... Connection closed? " st).
    simpl. rewrite Hbuf. simpl. split; [|done].
    unfold settle, add_console. simpl. by rewrite app_nil_r, Hbuf.
  - exists st. cbn [length]. rewrite parse_loop_drain, Hbuf.
    fold (drained convert (b :: buf)).
    by destruct (drained convert (b :: buf)) as [[c ms] leftover].
Qed.

(** The handler in terms of what the loop does on the unread bytes. *)
Lemma onReadEvent_drained st :
  let '(c, ms, leftover) := drained convert (unread st) in
  let st' := (onReadEvent convert publish st).2 in
  (onReadEvent convert publish st).1 = Normal
  ∧ unread st' = leftover
  ∧ published st' = published st ++ concat (publish <$> ms)
  ∧ log st' = (if c is OtherException
               then log st ++ ["Caught exception in ReceivingInterface!"]
               else log st)
  ∧ reactor_stopped st' = reactor_stopped st
  ∧ socket_shut_down st' = socket_shut_down st.
Proof.
  unfold onReadEvent.
  destruct (try_block_drained st) as (st0 & -> & Hu & Hp & Hl & Hr & Hs).
  destruct (drained convert (unread st)) as [[c ms] leftover]. simpl.
  destruct c; simpl; rewrite Hp, Hl, Hr, Hs; done.
Qed.

Lemma deliver_drained chunk st :
  let '(c, ms, leftover) := drained convert (unread st ++ chunk) in
  let st' := deliver convert publish chunk st in
  unread st' = leftover
  ∧ published st' = published st ++ concat (publish <$> ms)
  ∧ log st' = (if c is OtherException
               then log st ++ ["Caught exception in ReceivingInterface!"]
               else log st).
Proof.
  unfold deliver.
  pose proof (onReadEvent_drained (arrive chunk st)) as H. simpl in H.
  destruct (drained convert (unread st ++ chunk)) as [[c ms] leftover].
  simpl in *. tauto.
Qed.


Lemma connected_quiescent : quiescent convert (connected : Interface Out).
Proof. by unfold quiescent. Qed.





End ChannelFacts.

(** *** A sample channel *)

Section SampleChannel.
Import Samples.

Example sample_pieces_fed :
  Receiving.published
    (Receiving.feed counted_record publish_payload sample_pieces Receiving.connected)
  = [ [x0a; x0b]; [x0c] ]
  ∧ Receiving.unread
      (Receiving.feed counted_record publish_payload sample_pieces Receiving.connected)
    = [x03; x0d].
Proof. split; reflexivity. Qed.

Example sample_stream_fed_at_once :
  Receiving.published
    (Receiving.feed counted_record publish_payload [concat sample_pieces]
                    Receiving.connected)
  = [ [x0a; x0b]; [x0c] ]
  ∧ Receiving.unread
      (Receiving.feed counted_record publish_payload [concat sample_pieces]
                      Receiving.connected)
    = [x03; x0d].
Proof. split; reflexivity. Qed.

(** The same stream, one byte per readiness event. *)
Example sample_stream_fed_bytewise :
  Receiving.published
    (Receiving.feed counted_record publish_payload
                    ((λ b, [b]) <$> concat sample_pieces) Receiving.connected)
  = [ [x0a; x0b]; [x0c] ]
  ∧ Receiving.unread
      (Receiving.feed counted_record publish_payload
                      ((λ b, [b]) <$> concat sample_pieces) Receiving.connected)
    = [x03; x0d].
Proof. split; reflexivity. Qed.



(** A malformed record in the middle of an event: the record before it is
    published, the error is logged once, the handler returns, and the record
    that arrives with the next event is decoded. *)
Example malformed_record_is_survived :
  let st := Receiving.deliver counted_record publish_payload
              [x01; x0a; xff] Receiving.connected in
  Receiving.published st = [ [x0a] ]
  ∧ Receiving.log st = [ "Caught exception in ReceivingInterface!" ]
  ∧ Receiving.published
      (Receiving.deliver counted_record publish_payload [x01; x0b] st)
    = [ [x0a]; [x0b] ].
Proof. repeat split; reflexivity. Qed.

End SampleChannel.

(** *** The localization pose channel *)

Section LocalizationPoseFacts.
Import Receiving.

Variable double : Type.
Variable zero : double.
Variable ClientLocalizationPose : Type.
Variable LASER_FRAME_ID : string.

(** C3.  For a decoded localization pose datagram with the covariance
    values a, b, c, d, e, f, the channel publishes, third of its four
    messages, the pose with a 36-entry covariance array that holds a, b, c,
    d, e, f at the positions 0, 1, 5, 7, 11, 35 and the zero value at every
    other position. *)
Theorem covariance_packing (clp : ClientLocalizationPose)
    (p lidar : PoseStamped double) (a b c d e f : double) :
  let decoded := MkDecoded double ClientLocalizationPose clp p [a; b; c; d; e; f] lidar in
  let packed :=
    [ a; b; zero; zero; zero; c;
      zero; d; zero; zero; zero; e;
      zero; zero; zero; zero; zero; zero;
      zero; zero; zero; zero; zero; zero;
      zero; zero; zero; zero; zero; zero;
      zero; zero; zero; zero; zero; f ] in
  publishLocalizationPose double zero ClientLocalizationPose LASER_FRAME_ID decoded
  = [ Transform double ClientLocalizationPose
        (publishTransform double p MAP_FRAME_ID LASER_FRAME_ID);
      LocalizationPose double ClientLocalizationPose clp;
      PoseWithCovariance double ClientLocalizationPose
        (MkPoseWithCovarianceStamped double (ps_header double p) (ps_pose double p) packed);
      LidarOdoPose double ClientLocalizationPose lidar ]
  ∧ pack_covariance double zero [a; b; c; d; e; f] = packed
  ∧ length packed = 36%nat
  ∧ packed !! 0%nat = Some a ∧ packed !! 1%nat = Some b ∧ packed !! 5%nat = Some c
  ∧ packed !! 7%nat = Some d ∧ packed !! 11%nat = Some e ∧ packed !! 35%nat = Some f
  ∧ ∀ i, (i < 36)%nat → i ∉ [0; 1; 5; 7; 11; 35]%nat → packed !! i = Some zero.
Proof.
  intros decoded packed. repeat split; try reflexivity.
  intros i Hi Hnot.
  do 36 (destruct i as [|i]; [first [reflexivity | exfalso; apply Hnot; set_solver]|]).
  lia.
Qed.

End LocalizationPoseFacts.

(** ** 3. The bridge node *)

Section NodeFacts.
Import Bridge.

Variable counter_modulus : Z.
Variable get_config_entry : string → option string.
Variable session_query : gmap string Value.
Variable getRPY_yaw : Q * Q * Q * Q → Q.

Local Abbreviation step := (step counter_modulus get_config_entry session_query getRPY_yaw).
Local Abbreviation run := (run counter_modulus get_config_entry session_query getRPY_yaw).
Local Abbreviation laser_callback := (laser_callback counter_modulus get_config_entry).
Local Abbreviation laser2_callback := (laser2_callback counter_modulus get_config_entry).
Local Abbreviation odom_callback := (odom_callback counter_modulus).
Local Abbreviation wrapped := (wrapped counter_modulus).

Lemma run_snoc history ev st :
  run (history ++ [ev]) st = step (run history st) ev.
Proof. unfold Bridge.run. by rewrite foldl_snoc. Qed.

(** *** Names remembered between requests *)

(** The two name members hold what the history says, read from its end. *)
Lemma names_after_run history :
  last_recording_name_ (run history init) = most_recent_recording (rev history)
  ∧ last_map_name_ (run history init) = most_recent_map (rev history).
Proof.
  induction history as [|ev history [IHrec IHmap]] using rev_ind; [done|].
  rewrite run_snoc, rev_unit.
  destruct ev as [msg status|msg status|msg status|msg| | | | | | | | | | |]; simpl;
    try done.
  - unfold Bridge.laser_callback.
    by destruct (derive_scan_time _ msg), status.
  - unfold Bridge.laser2_callback.
    by destruct (derive_scan_time _ msg), status.
  - unfold setSeedCallback. by destruct (negb _).
  - by rewrite IHrec.
Qed.

(** C4.  A seed pose in a frame other than the map frame adds one error
    line, which names the frame it came in and the map frame, and asks
    nothing of the session client: no session query, no call.  A seed pose in
    the map frame logs nothing and asks for one session query and one call,
    of [clientLocalizationSetSeed]. *)
Theorem setSeedCallback_calls (msg : SeedPose) (st : Node) :
  let st' := setSeedCallback session_query getRPY_yaw msg st in
  if decide (seed_frame_id msg = MAP_FRAME_ID)
  then
    log st' = log st
    ∧ rpc st' =
        rpc st ++
        [ GetSessionQuery;
          Call "clientLocalizationSetSeed"
               (<["seedPose" := VPose2d (seed_x msg) (seed_y msg)
                                        (getRPY_yaw (seed_orientation msg))]>
                  (<["enforceSeed" := VBool true]> session_query)) ]
  else
    log st' =
      log st ++
      [ Error ("2D Pose Estimate sent in wrong frame! Is: " +:+ seed_frame_id msg
               +:+ " but should be " +:+ MAP_FRAME_ID) ]
    ∧ rpc st' = rpc st.
Proof.
  intros st'. subst st'. unfold setSeedCallback.
  destruct (decide (seed_frame_id msg = MAP_FRAME_ID)) as [Heq|Hne].
  - apply String.eqb_eq in Heq. by rewrite Heq.
  - apply String.eqb_neq in Hne. by rewrite Hne.
Qed.

(** C5.  After any history of events, a map-start request asks for one
    [clientMapStart] call whose recording name is the request's, or, when
    that is empty, the name of the most recent start-visual-recording
    request, and whose client map name is the request's, or, when that is
    empty, "map-from-" followed by that recording name; the map name is also
    what the node remembers.  With an empty request after a recording
    "rec1" the call carries clientMapName = "map-from-rec1". *)
Theorem clientMapStartCb_names (history : list Event)
    (req_recording_name req_client_map_name : string) :
  let st := run history init in
  let st' := clientMapStartCb session_query req_recording_name req_client_map_name st in
  let recording_name :=
    if empty req_recording_name then most_recent_recording (rev history)
    else req_recording_name in
  let client_map_name :=
    if empty req_client_map_name then "map-from-" +:+ recording_name
    else req_client_map_name in
  let query :=
    <["clientMapName" := VString client_map_name]>
      (<["recordingName" := VString recording_name]> session_query) in
  rpc st' = rpc st ++ [GetSessionQuery; Call "clientMapStart" query]
  ∧ query !! "clientMapName" = Some (VString client_map_name)
  ∧ query !! "recordingName" = Some (VString recording_name)
  ∧ last_map_name_ st' = client_map_name
  ∧ (∀ older,
       history = older ++ [StartVisualRecording "rec1"] →
       req_recording_name = "" → req_client_map_name = "" →
       query !! "clientMapName" = Some (VString "map-from-rec1")).
Proof.
  intros st st' recording_name client_map_name query.
  destruct (names_after_run history) as [Hrec _].
  subst st' query client_map_name recording_name st.
  unfold clientMapStartCb. rewrite Hrec. simpl.
  repeat split.
  - by rewrite lookup_insert_eq.
  - rewrite lookup_insert_ne by done. by rewrite lookup_insert_eq.
  - intros older -> -> ->. rewrite rev_unit. simpl. by rewrite lookup_insert_eq.
Qed.

(** Scenario 4 of the specification, run from a fresh node. *)
Example map_from_rec1 :
  list.last (rpc (run [StartVisualRecording "rec1"; MapStart "" ""] init))
  = Some (Call "clientMapStart"
               (<["clientMapName" := VString "map-from-rec1"]>
                  (<["recordingName" := VString "rec1"]> session_query))).
Proof. reflexivity. Qed.

(** C10.  After any history of events, a send-map request with an empty
    name asks for the [clientMapSend] call with the client map name that the
    most recent map-start request resolved to (the empty string when there
    was none), and a set-map request with an empty name writes that name as
    [ClientLocalization.activeMapName] through the bulk config write; a name
    that is not empty is used as it is. *)
Theorem map_send_and_set_names (history : list Event) (name : string) :
  let st := run history init in
  let used := if empty name then most_recent_map (rev history) else name in
  rpc (clientMapSendCb session_query name st)
  = rpc st ++
    [ GetSessionQuery;
      Call "clientMapSend" (<["clientMapName" := VString used]> session_query) ]
  ∧ (<["clientMapName" := VString used]> session_query) !! "clientMapName"
    = Some (VString used)
  ∧ rpc (clientMapSetCb name st)
    = rpc st ++
      [ SetConfigList {[ "ClientLocalization.activeMapName" := VString used ]} ].
Proof.
  intros st used. destruct (names_after_run history) as [_ Hmap].
  subst used st. unfold clientMapSendCb, clientMapSetCb. rewrite Hmap. simpl.
  repeat split. by rewrite lookup_insert_eq.
Qed.

(** A send-map request without a name on a node that has started no map. *)
Example map_send_before_any_map_start :
  rpc (run [MapSend ""] init)
  = [ GetSessionQuery;
      Call "clientMapSend" (<["clientMapName" := VString ""]> session_query) ].
Proof. reflexivity. Qed.

(** *** Sequence counters *)

Lemma readings_snoc (P : Event → Prop) `{∀ ev, Decision (P ev)} history ev :
  length (filter P (history ++ [ev]))
  = (length (filter P history) + (if decide (P ev) then 1 else 0))%nat.
Proof.
  rewrite list.filter_app, length_app. f_equal.
  rewrite filter_cons, filter_nil. by destruct (decide (P ev)).
Qed.

Lemma wrapped_S n :
  wrapped (S n) = wrapped n ++ [Z.of_nat (S n) mod counter_modulus].
Proof.
  unfold Bridge.wrapped. rewrite seqZ_S, fmap_app. simpl. do 3 f_equal. lia.
Qed.

Lemma pre_increment_wrapped n :
  pre_increment counter_modulus (Z.of_nat n mod counter_modulus)
  = Z.of_nat (S n) mod counter_modulus.
Proof.
  unfold pre_increment. rewrite Zplus_mod_idemp_l. f_equal. lia.
Qed.

Lemma wrapped_below_modulus n :
  Z.of_nat n < counter_modulus → wrapped n = seqZ 1 (Z.of_nat n).
Proof.
  induction n as [|n IH]; [done|]. intros Hn.
  rewrite wrapped_S, seqZ_S, IH by lia. f_equal.
  rewrite Z.mod_small by lia. f_equal. lia.
Qed.

(** Every counter is the number of readings of its own channel, wrapped, and
    the datagrams of a channel carry the wrapped numbers 1, 2, 3, ... *)
Lemma counters_after_run history :
  let st := run history init in
  (scan_num_ st = Z.of_nat (laser_readings history) mod counter_modulus
   ∧ sequence_number <$> laser_sent st = wrapped (laser_readings history))
  ∧ (scan2_num_ st = Z.of_nat (laser2_readings history) mod counter_modulus
     ∧ sequence_number <$> laser2_sent st = wrapped (laser2_readings history))
  ∧ (odom_num_ st = Z.of_nat (odometry_readings history) mod counter_modulus
     ∧ sequence_number <$> odom_sent st = wrapped (odometry_readings history)).
Proof.
  induction history as [|ev history IH] using rev_ind.
  { simpl. by rewrite Zmod_0_l. }
  simpl in IH |- *. destruct IH as ((Hn1 & Hs1) & (Hn2 & Hs2) & (Hn3 & Hs3)).
  rewrite run_snoc.
  unfold laser_readings, laser2_readings, odometry_readings in *.
  rewrite !readings_snoc.
  destruct ev as [msg status|msg status|msg status|msg| | | | | | | | | | |];
    simpl; rewrite ?Nat.add_0_r; try done.
  - unfold Bridge.laser_callback.
    destruct (derive_scan_time _ msg) as [msg' prev], status; simpl;
      rewrite Nat.add_1_r, fmap_app, wrapped_S, Hn1, Hs1, pre_increment_wrapped;
      done.
  - unfold Bridge.laser2_callback.
    destruct (derive_scan_time _ msg) as [msg' prev], status; simpl;
      rewrite Nat.add_1_r, fmap_app, wrapped_S, Hn2, Hs2, pre_increment_wrapped;
      done.
  - rewrite Nat.add_1_r, fmap_app, wrapped_S, Hn3, Hs3, pre_increment_wrapped.
    done.
  - unfold setSeedCallback. by destruct (negb _).
Qed.

(** C7.  After any history of events, the datagrams handed to the sending
    interface of a channel carry, in order, the numbers 1, 2, 3, ... up to
    the number of readings that arrived on that channel, each reduced modulo
    the width of the counter: one increment per reading, applied before the
    datagram is built, counted per channel, and undone by no event.  As long
    as a channel has seen fewer readings than the counter can hold, its
    numbers are exactly 1, 2, ..., n, strictly increasing. *)
Theorem sequence_numbers_count_readings (history : list Event) :
  let st := run history init in
  sequence_number <$> laser_sent st = wrapped (laser_readings history)
  ∧ sequence_number <$> laser2_sent st = wrapped (laser2_readings history)
  ∧ sequence_number <$> odom_sent st = wrapped (odometry_readings history)
  ∧ (Z.of_nat (laser_readings history) < counter_modulus →
     sequence_number <$> laser_sent st = seqZ 1 (Z.of_nat (laser_readings history)))
  ∧ (Z.of_nat (laser2_readings history) < counter_modulus →
     sequence_number <$> laser2_sent st = seqZ 1 (Z.of_nat (laser2_readings history)))
  ∧ (Z.of_nat (odometry_readings history) < counter_modulus →
     sequence_number <$> odom_sent st = seqZ 1 (Z.of_nat (odometry_readings history))).
Proof.
  intros st. subst st.
  destruct (counters_after_run history) as ((_ & H1) & (_ & H2) & (_ & H3)).
  repeat split; try done.
  - intros Hn. by rewrite H1, wrapped_below_modulus.
  - intros Hn. by rewrite H2, wrapped_below_modulus.
  - intros Hn. by rewrite H3, wrapped_below_modulus.
Qed.

(** *** Scan times *)

Lemma prev_timestamps_after_run history :
  prev_laser_timestamp_ (run history init)
  = most_recent_unset_stamp Laser (rev history)
  ∧ prev_laser2_timestamp_ (run history init)
    = most_recent_unset_stamp Laser2 (rev history).
Proof.
  induction history as [|ev history [IH1 IH2]] using rev_ind; [done|].
  rewrite run_snoc, rev_unit.
  destruct ev as [msg status|msg status|msg status|msg| | | | | | | | | | |]; simpl;
    try done.
  - unfold Bridge.laser_callback, derive_scan_time. rewrite IH1.
    by destruct (Qeq_bool (scan_time msg) 0), status.
  - unfold Bridge.laser2_callback, derive_scan_time. rewrite IH2.
    by destruct (Qeq_bool (scan_time msg) 0), status.
  - unfold setSeedCallback. by destruct (negb _).
Qed.

(** C8, as the code has it.  After any history of events, a laser scan
    without a scan time goes into its datagram unchanged when no earlier
    reading on its channel came without a scan time, or when the most recent
    such reading had the stamp zero; otherwise its scan time is set to the
    time from the header stamp of the most recent earlier reading on its
    channel that came without a scan time to its own header stamp.  A scan
    that has a scan time goes into its datagram unchanged.  Both laser
    channels behave so, each with its own previous stamp. *)
Theorem scan_time_from_last_unset_reading (history : list Event)
    (msg : LaserScan) (status : SendingStatus) :
  let st := run history init in
  let encoded (channel : LaserChannel) :=
    let previous := most_recent_unset_stamp channel (rev history) in
    if Qeq_bool (scan_time msg) 0 then
      if previous =? 0 then msg
      else set_scan_time (seconds (stamp msg - previous)) msg
    else msg in
  list.last (laser_sent (laser_callback msg status st))
  = Some (LaserScanDatagram (encoded Laser)
                            (pre_increment counter_modulus (scan_num_ st)))
  ∧ list.last (laser2_sent (laser2_callback msg status st))
    = Some (LaserScanDatagram (encoded Laser2)
                              (pre_increment counter_modulus (scan2_num_ st))).
Proof.
  intros st encoded. subst st encoded.
  destruct (prev_timestamps_after_run history) as [H1 H2].
  unfold Bridge.laser_callback, Bridge.laser2_callback, derive_scan_time.
  rewrite H1, H2.
  split.
  - destruct (Qeq_bool (scan_time msg) 0), status; simpl;
      by rewrite last_snoc.
  - destruct (Qeq_bool (scan_time msg) 0), status; simpl;
      by rewrite last_snoc.
Qed.

(** *** The diagnosis of a laser scan *)

Lemma checkLaserScan_passes_iff msg laser :
  checkLaserScan get_config_entry msg laser = [] ↔
  double_gt
    (fabs (double_of_float
             (float_sub
                (float_add (angle_min msg)
                   (float_mul
                      (float_of_size_t (size_t_sub (Z.of_nat (length (ranges msg))) 1))
                      (angle_increment msg)))
                (angle_max msg))))
    (fabs (double_mul one_half (double_of_float (angle_increment msg)))) = false
  ∧ (get_config_entry ("ClientSensor." +:+ laser +:+ ".useIntensities") = Some "true" →
     length (ranges msg) = length (intensities msg)).
Proof.
  unfold checkLaserScan.
  destruct (double_gt _ _); simpl; [split; [done | by intros [? _]]|].
  destruct (get_config_entry _) as [value|]; [|by split].
  destruct (String.eqb_spec value "true") as [->|Hne]; simpl.
  - destruct (Nat.eqb_spec (length (ranges msg)) (length (intensities msg)));
      simpl; split; try done.
    + intros [_ Heq]. by specialize (Heq eq_refl).
  - split; [|done]. intros _. split; [done|]. by intros [= ->].
Qed.

Lemma size_t_sub_1 (n : nat) :
  (1 ≤ n)%nat → Z.of_nat n < 2 ^ 64 → size_t_sub (Z.of_nat n) 1 = Z.of_nat n - 1.
Proof. intros Hn Hlt. unfold size_t_sub. apply Z.mod_small. lia. Qed.

Lemma double_gt_nan (x : float64) : double_gt S754_nan x = false.
Proof. by destruct x. Qed.

Lemma float_sub_nan (x : float32) : float_sub x S754_nan = S754_nan.
Proof. by destruct x. Qed.

(** C6.  The callbacks of both laser channels run the diagnosis exactly
    when [sendData] answered with an I/O failure, and log what it logs.  The
    diagnosis logs nothing exactly when the absolute value of angle_min +
    (ranges.size - 1) * angle_increment - angle_max, computed in single
    precision with every operation rounded, is not greater than the
    absolute value of 0.5 * angle_increment and, in case the config entry
    ClientSensor.<laser>.useIntensities reads "true", the ranges and the
    intensities have the same length; when the angles are off it logs the
    one line about them, with the numbers of the computation, and does not
    look at the intensities.  An angle_max that is not a number is never
    off.  The difference ranges.size - 1 is taken on [size_t], which is the
    number of ranges less one for every scan that has a range.  The scan of
    scenario 3, its increment the [float] nearest to 0.01, passes with
    angle_max = 1.0 and is logged as invalid with angle_max = 1.5. *)
Theorem checkLaserScan_diagnosis (msg : LaserScan) (status : SendingStatus)
    (st : Node) :
  let size_minus_1 := size_t_sub (Z.of_nat (length (ranges msg))) 1 in
  let reached :=
    float_add (angle_min msg)
              (float_mul (float_of_size_t size_minus_1) (angle_increment msg)) in
  let off :=
    double_gt (fabs (double_of_float (float_sub reached (angle_max msg))))
              (fabs (double_mul one_half (double_of_float (angle_increment msg)))) in
  log (laser_callback msg status st)
  = log st ++
    (if status is IO_EXCEPTION
     then checkLaserScan get_config_entry
            (derive_scan_time (prev_laser_timestamp_ st) msg).1 "laser"
     else [])
  ∧ log (laser2_callback msg status st)
    = log st ++
      (if status is IO_EXCEPTION
       then checkLaserScan get_config_entry
              (derive_scan_time (prev_laser2_timestamp_ st) msg).1 "laser2"
       else [])
  ∧ (∀ laser,
       checkLaserScan get_config_entry msg laser = [] ↔
       off = false
       ∧ (get_config_entry ("ClientSensor." +:+ laser +:+ ".useIntensities")
          = Some "true" →
          length (ranges msg) = length (intensities msg)))
  ∧ (∀ laser,
       off = true →
       checkLaserScan get_config_entry msg laser
       = [ InvalidScanAngles (angle_min msg) size_minus_1 (angle_increment msg)
                             reached (angle_max msg) ])
  ∧ (angle_max msg = S754_nan → off = false)
  ∧ (ranges msg ≠ [] → Z.of_nat (length (ranges msg)) < 2 ^ 64 →
     size_minus_1 = Z.of_nat (length (ranges msg)) - 1)
  ∧ (∀ laser,
       checkLaserScan get_config_entry (scenario_scan (float_of_size_t 1)) laser = [])
  ∧ (∀ laser,
       checkLaserScan get_config_entry (scenario_scan (float_of_ratio 3 2)) laser
       = [ InvalidScanAngles (float_of_size_t 0) 100 (float_of_ratio 1 100)
                             (float_of_size_t 1) (float_of_ratio 3 2) ]).
Proof.
  intros size_minus_1 reached off.
  split; [|split; [|split; [|split; [|split; [|split; [|split]]]]]].
  - unfold Bridge.laser_callback.
    destruct (derive_scan_time _ msg) as [msg' prev], status; simpl;
      by rewrite ?app_nil_r.
  - unfold Bridge.laser2_callback.
    destruct (derive_scan_time _ msg) as [msg' prev], status; simpl;
      by rewrite ?app_nil_r.
  - intros laser. apply checkLaserScan_passes_iff.
  - intros laser Hoff. unfold checkLaserScan.
    fold size_minus_1. fold reached. fold off. by rewrite Hoff.
  - intros Hnan. subst off. by rewrite Hnan, float_sub_nan, double_gt_nan.
  - intros Hne Hlt. apply size_t_sub_1; [|done].
    destruct (ranges msg); [done | simpl; lia].
  - intros laser. apply checkLaserScan_passes_iff. split; [|done].
    vm_compute. reflexivity.
  - intros laser. vm_compute. reflexivity.
Qed.

End NodeFacts.

(** *** Concrete runs *)

Section NodeRuns.
Import Bridge Samples.

(** A node whose counters are 32 bits wide, on an appliance that has no
    config entry to give, with an empty session query. *)
Local Abbreviation run32 := (run (2 ^ 32) (λ _, None) ∅ (λ _, 0%Q)).
Local Abbreviation laser_callback32 := (laser_callback (2 ^ 32) (λ _, None)).

(** The reading at 12 s comes one second after a reading that brought its
    own scan time, and it is sent with a scan time of two seconds, the time
    since the reading at 10 s.  And after a first reading with the stamp
    zero, a reading five seconds later is sent without a scan time. *)
Lemma scan_time_is_not_since_previous_reading :
  let sent :=
    list.last (laser_sent (laser_callback32 (scan_at 12 0) SUCCESS
                             (run32 mixed_history init))) in
  let sent_after_zero :=
    list.last (laser_sent (laser_callback32 (scan_at 5 0) SUCCESS
                             (run32 [LaserReading (scan_at 0 0) SUCCESS] init))) in
  (sent ≫= encoded_scan_time = Some (2000000000 # 1000000000)
   ∧ scan_time_since_previous_reading Laser (rev mixed_history) (scan_at 12 0)
     = 1000000000 # 1000000000
   ∧ ¬ (2000000000 # 1000000000 == 1000000000 # 1000000000)%Q)
  ∧ (sent_after_zero ≫= encoded_scan_time = Some 0%Q
     ∧ scan_time_since_previous_reading Laser
         [LaserReading (scan_at 0 0) SUCCESS] (scan_at 5 0)
       = 5000000000 # 1000000000
     ∧ ¬ (0 == 5000000000 # 1000000000)%Q).
Proof. repeat split; vm_compute; discriminate. Qed.

(** A first reading with the stamp zero: the second reading, five seconds
    later and without a scan time, is sent without one as well. *)
Example stamp_zero_counts_as_no_reading :
  list.last (laser_sent (laser_callback32 (scan_at 5 0) SUCCESS
                           (run32 [LaserReading (scan_at 0 0) SUCCESS] init)))
  ≫= encoded_scan_time = Some 0%Q.
Proof. reflexivity. Qed.

(** Two scans without a scan time in a row: the second is sent with the
    time between the two stamps. *)
Example scan_time_of_second_reading :
  list.last (laser_sent (laser_callback32 (scan_at 11 0) SUCCESS
                           (run32 [LaserReading (scan_at 10 0) SUCCESS] init)))
  ≫= encoded_scan_time = Some (1000000000 # 1000000000).
Proof. reflexivity. Qed.

(** Readings on the three channels interleaved with requests: every channel
    counts for itself, starting at 1. *)
Example interleaved_sequence_numbers :
  let st :=
    run32 [ LaserReading (scan_at 1 0) SUCCESS;
            OdometryReading (MkOdometry 1 (0, 0, 0) (0, 0, 0))%Q SUCCESS;
            Laser2Reading (scan_at 1 0) IO_EXCEPTION;
            MapStart "" "";
            LaserReading (scan_at 2 0) IO_EXCEPTION;
            OdometryReading (MkOdometry 2 (0, 0, 0) (0, 0, 0))%Q SUCCESS;
            OdometryReading (MkOdometry 3 (0, 0, 0) (0, 0, 0))%Q SUCCESS ] init in
  sequence_number <$> laser_sent st = [1; 2]
  ∧ sequence_number <$> laser2_sent st = [1]
  ∧ sequence_number <$> odom_sent st = [1; 2; 3].
Proof. repeat split. Qed.

(** A seed pose in the odometry frame (scenario 5 of the specification) and
    one in the map frame. *)
Example seed_in_odom_frame :
  let st := run32 [SetSeed (MkSeedPose "odom" 1 2 (0, 0, 0, 1)%Q)] init in
  rpc st = []
  ∧ log st = [ Error "2D Pose Estimate sent in wrong frame! Is: odom but should be map" ].
Proof. split; reflexivity. Qed.

Example seed_in_map_frame :
  rpc (run32 [SetSeed (MkSeedPose "map" 1 2 (0, 0, 0, 1)%Q)] init)
  = [ GetSessionQuery;
      Call "clientLocalizationSetSeed"
           (<["seedPose" := VPose2d 1 2 0]> (<["enforceSeed" := VBool true]> ∅)) ].
Proof. reflexivity. Qed.

(** The scan of eight ranges in steps of 0.1 that states 0.75: on the
    numbers that its fields stand for, angle_min + 7 * angle_increment is
    within half an increment of angle_max, and yet the diagnosis logs the
    scan as invalid, since the product 7 * angle_increment is rounded down
    in single precision. *)
Lemma checkLaserScan_is_not_the_test_on_numbers :
  within_half_an_increment coarse_scan = Some true
  ∧ checkLaserScan (λ _, None) coarse_scan "laser"
    = [ InvalidScanAngles (float_of_size_t 0) 7 (float_of_ratio 1 10)
                          (S754_finite false 11744051 (-24)) (float_of_ratio 3 4) ]
  ∧ log (laser_callback32 coarse_scan IO_EXCEPTION init)
    = [ InvalidScanAngles (float_of_size_t 0) 7 (float_of_ratio 1 10)
                          (S754_finite false 11744051 (-24)) (float_of_ratio 3 4) ].
Proof. repeat split; vm_compute; reflexivity. Qed.

(** A scan without ranges: ranges.size() - 1 is the largest [size_t], which
    the angle line prints; with an increment small enough the product is
    lost in the sum and the scan passes. *)
Example scan_without_ranges :
  checkLaserScan (λ _, None) (scenario_scan_without_ranges) "laser"
  = [ InvalidScanAngles (float_of_size_t 0) 18446744073709551615
                        (float_of_ratio 1 100)
                        (S754_finite false 10737418 34) (float_of_size_t 0) ]
  ∧ checkLaserScan (λ _, None) empty_scan "laser" = [].
Proof. split; vm_compute; reflexivity. Qed.

End NodeRuns.

(** * Further properties *)

(** ** 1. Module version check *)

Section VersionMore.
Import Versions.

(** X1.  A report that passes the version check still passes after the
    appliance raised minor versions (or added modules): if every module that
    [reported] lists is listed by [upgraded] with the same major version
    and a minor version at least as high, the answer stays [true]. *)
Theorem check_module_versions_minor_upgrade
    (reported upgraded : gmap string version) :
  check_module_versions reported = true →
  (∀ name major minor,
     reported !! name = Some (major, minor) →
     ∃ minor', upgraded !! name = Some (major, minor') ∧ minor ≤ minor') →
  check_module_versions upgraded = true.
Proof.
  intros Hpass Hup. apply check_against_true. intros entry Hin.
  destruct (proj1 (check_against_true _ _) Hpass entry Hin)
    as (amaj & amin & Hlook & Hmaj & Hmin).
  destruct (Hup _ _ _ Hlook) as (minor' & Hlook' & Hle).
  exists amaj, minor'. split; [done|]. split; [done|lia].
Qed.

(** X2.  Every module of the registry is needed: a report from which one
    of them is taken away fails the check, whatever else it lists. *)
Theorem check_module_versions_needs_every_module
    (reported : gmap string version) (name : string) :
  name ∈ REQUIRED_MODULE_VERSIONS.*1 →
  check_module_versions (delete name reported) = false.
Proof.
  intros Hin. apply check_against_false.
  apply list_elem_of_fmap in Hin as ([name' req] & -> & Hin).
  exists (name', req). split; [done|]. left. simpl. apply lookup_delete_eq.
Qed.

End VersionMore.

Lemma minor_upgrade_sample :
  Versions.check_module_versions
    (<["Session" := (3, 9)]> (<["User" := (1, 0)]>
       (list_to_map Versions.REQUIRED_MODULE_VERSIONS))) = true.
Proof.
  apply (check_module_versions_minor_upgrade
           (list_to_map Versions.REQUIRED_MODULE_VERSIONS)).
  - vm_compute. reflexivity.
  - intros name major minor Hlook.
    destruct (decide (name = "Session")) as [->|Hne].
    + rewrite lookup_insert_eq.
      vm_compute in Hlook. injection Hlook as <- <-. exists 9. split; [done|lia].
    + rewrite lookup_insert_ne by done.
      destruct (decide (name = "User")) as [->|Hne'].
      * vm_compute in Hlook. discriminate.
      * rewrite lookup_insert_ne by done. exists minor. split; [done|lia].
Defined.

Lemma needs_every_module_sample :
  Versions.check_module_versions
    (delete "ClientSensor" (list_to_map Versions.REQUIRED_MODULE_VERSIONS)) = false.
Proof.
  apply (check_module_versions_needs_every_module
           (list_to_map Versions.REQUIRED_MODULE_VERSIONS) "ClientSensor").
  vm_compute. set_solver.
Defined.

(** ** 2. The bridge node *)

Section NodeMore.
Import Bridge Traces.

Variable counter_modulus : Z.
Variable get_config_entry : string → option string.
Variable session_query : gmap string Value.
Variable getRPY_yaw : Q * Q * Q * Q → Q.

Local Abbreviation step := (step counter_modulus get_config_entry session_query getRPY_yaw).
Local Abbreviation run := (run counter_modulus get_config_entry session_query getRPY_yaw).
Local Abbreviation laser_callback := (laser_callback counter_modulus get_config_entry).
Local Abbreviation laser2_callback := (laser2_callback counter_modulus get_config_entry).
Local Abbreviation odom_callback := (odom_callback counter_modulus).

Lemma run_app history history' st :
  run (history ++ history') st = run history' (run history st).
Proof. unfold Bridge.run. apply foldl_app. Qed.

(** *** The session in every call *)

(** A trace in which every call comes right after a session query and
    carries what the session query holds, but for the keys that the
    callbacks set. *)
Definition calls_in_session (trace : list RpcEvent) : Prop :=
  ∀ i method query,
    trace !! i = Some (Call method query) →
    (∃ j, i = S j ∧ trace !! j = Some GetSessionQuery)
    ∧ ∀ key, key ∉ keys_set_by_callbacks → query !! key = session_query !! key.

Lemma calls_in_session_app trace block :
  calls_in_session trace → calls_in_session block →
  calls_in_session (trace ++ block).
Proof.
  intros Htrace Hblock i method query Hi.
  destruct (decide (i < length trace)%nat) as [Hlt|Hge].
  - rewrite lookup_app_l in Hi by done.
    destruct (Htrace _ _ _ Hi) as [(j & -> & Hj) Hkeys]. split; [|done].
    exists j. split; [done|]. rewrite lookup_app_l by lia. done.
  - rewrite lookup_app_r in Hi by lia.
    destruct (Hblock _ _ _ Hi) as [(j & Hij & Hj) Hkeys]. split; [|done].
    exists (length trace + j)%nat. split; [lia|].
    rewrite lookup_app_r by lia. by replace (length trace + j - length trace)%nat with j by lia.
Qed.

Lemma session_then_call method query :
  (∀ key, key ∉ keys_set_by_callbacks → query !! key = session_query !! key) →
  calls_in_session [GetSessionQuery; Call method query].
Proof.
  intros Hkeys i method' query' Hi.
  destruct i as [|[|i]]; simplify_eq/=. split; [by exists 0%nat | done].
Qed.

Lemma no_call_in_session trace :
  (∀ i method query, trace !! i ≠ Some (Call method query)) →
  calls_in_session trace.
Proof. intros Hno i method query Hi. by destruct (Hno i method query). Qed.

Lemma step_appends_in_session st ev :
  ∃ block, rpc (step st ev) = rpc st ++ block ∧ calls_in_session block.
Proof.
  assert (calls_in_session []) as Hnil by (by apply no_call_in_session).
  assert (∀ key : string, key ∉ keys_set_by_callbacks →
            key ≠ "clientMapName" ∧ key ≠ "recordingName"
            ∧ key ≠ "enforceSeed" ∧ key ≠ "seedPose") as Hkeys.
  { unfold keys_set_by_callbacks. intros key Hnot. set_solver. }
  destruct ev as [msg status|msg status|msg status|msg|name| |rec map| | | |name|name| | |];
    simpl.
  - exists []. rewrite app_nil_r. split; [|done].
    unfold Bridge.laser_callback. by destruct (derive_scan_time _ msg), status.
  - exists []. rewrite app_nil_r. split; [|done].
    unfold Bridge.laser2_callback. by destruct (derive_scan_time _ msg), status.
  - exists []. by rewrite app_nil_r.
  - unfold setSeedCallback. destruct (negb _).
    + exists []. by rewrite app_nil_r.
    + eexists. split; [done|]. apply session_then_call.
      intros key (? & ? & ? & ?)%Hkeys. by rewrite !lookup_insert_ne.
  - eexists. split; [done|]. apply session_then_call.
    intros key (? & ? & ? & ?)%Hkeys. by rewrite !lookup_insert_ne.
  - eexists. split; [done|]. by apply session_then_call.
  - eexists. split; [done|]. apply session_then_call.
    intros key (? & ? & ? & ?)%Hkeys. by rewrite !lookup_insert_ne.
  - eexists. split; [done|]. by apply session_then_call.
  - eexists. split; [done|]. by apply session_then_call.
  - eexists. split; [done|]. by apply session_then_call.
  - eexists. split; [done|]. apply session_then_call.
    intros key (? & ? & ? & ?)%Hkeys. by rewrite !lookup_insert_ne.
  - eexists. split; [done|]. apply no_call_in_session.
    intros [|i] method query; [done|]. by destruct i.
  - eexists. split; [done|]. by apply session_then_call.
  - exists []. by rewrite app_nil_r.
  - eexists. split; [done|]. apply no_call_in_session.
    intros [|i] method query; [done|]. by destruct i.
Qed.

Lemma run_in_session history : calls_in_session (rpc (run history init)).
Proof.
  induction history as [|ev history IH] using rev_ind.
  - by apply no_call_in_session.
  - rewrite run_app. simpl.
    destruct (step_appends_in_session (run history init) ev) as (block & -> & Hblock).
    by apply calls_in_session_app.
Qed.

(** X3.  Whatever events reached the node, every call that it made on the
    session client came directly after it asked for a session query, and its
    query holds every entry of that session query under every key other than
    clientMapName, recordingName, enforceSeed and seedPose. *)
Theorem calls_carry_the_session (history : list Event) (i : nat)
    (method : string) (query : gmap string Value) :
  rpc (run history init) !! i = Some (Call method query) →
  (∃ j, i = S j ∧ rpc (run history init) !! j = Some GetSessionQuery)
  ∧ ∀ key, key ∉ keys_set_by_callbacks → query !! key = session_query !! key.
Proof. apply run_in_session. Qed.

(** *** What a trace depends on *)

Lemma foreign_event_keeps_laser_view st ev :
  reading_on Laser ev = None → laser_view (step st ev) = laser_view st.
Proof.
  destruct ev as [msg status|msg status|msg status|msg| | | | | | | | | | |];
    simpl; try done; intros _.
  - unfold Bridge.laser2_callback. by destruct (derive_scan_time _ msg), status.
  - unfold setSeedCallback. by destruct (negb _).
Qed.

Lemma foreign_event_keeps_laser2_view st ev :
  reading_on Laser2 ev = None → laser2_view (step st ev) = laser2_view st.
Proof.
  destruct ev as [msg status|msg status|msg status|msg| | | | | | | | | | |];
    simpl; try done; intros _.
  - unfold Bridge.laser_callback. by destruct (derive_scan_time _ msg), status.
  - unfold setSeedCallback. by destruct (negb _).
Qed.

Lemma foreign_event_keeps_odom_view st ev :
  is_odometry ev = false → odom_view (step st ev) = odom_view st.
Proof.
  destruct ev as [msg status|msg status|msg status|msg| | | | | | | | | | |];
    simpl; try done; intros _.
  - unfold Bridge.laser_callback. by destruct (derive_scan_time _ msg), status.
  - unfold Bridge.laser2_callback. by destruct (derive_scan_time _ msg), status.
  - unfold setSeedCallback. by destruct (negb _).
Qed.

Lemma reading_keeps_request_view st ev :
  is_request ev = false → request_view (step st ev) = request_view st.
Proof.
  destruct ev as [msg status|msg status|msg status|msg| | | | | | | | | | |];
    simpl; try done; intros _.
  - unfold Bridge.laser_callback. by destruct (derive_scan_time _ msg), status.
  - unfold Bridge.laser2_callback. by destruct (derive_scan_time _ msg), status.
Qed.

Lemma laser_view_step st st' ev :
  laser_view st = laser_view st' → laser_view (step st ev) = laser_view (step st' ev).
Proof.
  intros Hview.
  destruct (reading_on Laser ev) eqn:Hon.
  - destruct ev; try done. simpl. injection Hview as Hn Hp Hs.
    unfold Bridge.laser_callback. rewrite Hp.
    destruct (derive_scan_time _ msg) as [msg' prev], status; simpl;
      unfold laser_view; simpl; by rewrite Hn, Hs.
  - by rewrite !foreign_event_keeps_laser_view.
Qed.

Lemma laser2_view_step st st' ev :
  laser2_view st = laser2_view st' → laser2_view (step st ev) = laser2_view (step st' ev).
Proof.
  intros Hview.
  destruct (reading_on Laser2 ev) eqn:Hon.
  - destruct ev; try done. simpl. injection Hview as Hn Hp Hs.
    unfold Bridge.laser2_callback. rewrite Hp.
    destruct (derive_scan_time _ msg) as [msg' prev], status; simpl;
      unfold laser2_view; simpl; by rewrite Hn, Hs.
  - by rewrite !foreign_event_keeps_laser2_view.
Qed.

Lemma odom_view_step st st' ev :
  odom_view st = odom_view st' → odom_view (step st ev) = odom_view (step st' ev).
Proof.
  intros Hview.
  destruct (is_odometry ev) eqn:Hon.
  - destruct ev; try done. simpl. injection Hview as Hn Hs.
    unfold odom_view. simpl. by rewrite Hn, Hs.
  - by rewrite !foreign_event_keeps_odom_view.
Qed.

Lemma request_view_step st st' ev :
  request_view st = request_view st' →
  request_view (step st ev) = request_view (step st' ev).
Proof.
  intros Hview.
  destruct (is_request ev) eqn:Hon.
  - injection Hview as Hr Hm Hs.
    destruct ev; try done; simpl; unfold request_view;
      try (simpl; by rewrite ?Hr, ?Hm, ?Hs).
    unfold setSeedCallback. destruct (negb _); simpl; by rewrite ?Hr, ?Hm, ?Hs.
  - by rewrite !reading_keeps_request_view.
Qed.

(** A view that the events outside [keep] leave alone and that every event
    carries along is the same after a history and after its kept part. *)
Lemma view_of_kept_events {V : Type} (view : Node → V) (keep : Event → bool) :
  (∀ st ev, keep ev = false → view (step st ev) = view st) →
  (∀ st st' ev, view st = view st' → view (step st ev) = view (step st' ev)) →
  ∀ history,
    view (run history init)
    = view (run (filter (λ ev, keep ev = true) history) init).
Proof.
  intros Hskip Hstep history.
  induction history as [|ev history IH] using rev_ind; [done|].
  rewrite list.filter_app, !run_app. simpl.
  rewrite filter_cons, filter_nil.
  destruct (decide (keep ev = true)) as [Hkeep|Hdrop]; simpl.
  - by apply Hstep.
  - rewrite Hskip by (by destruct (keep ev)). done.
Qed.

(** X4.  What a sending interface was handed, datagram by datagram with
    the scans and numbers in them, is settled by the readings of its own
    channel alone: readings on the other channels, seed poses, service
    requests and session refreshes in between change nothing of it. *)
Theorem datagrams_depend_on_own_readings (history : list Event) :
  laser_sent (run history init)
  = laser_sent (run (filter (λ ev, bool_decide (is_Some (reading_on Laser ev)) = true)
                            history) init)
  ∧ laser2_sent (run history init)
    = laser2_sent (run (filter (λ ev, bool_decide (is_Some (reading_on Laser2 ev)) = true)
                               history) init)
  ∧ odom_sent (run history init)
    = odom_sent (run (filter (λ ev, is_odometry ev = true) history) init).
Proof.
  split; [|split].
  - assert (laser_view (run history init) = laser_view
      (run (filter (λ ev, bool_decide (is_Some (reading_on Laser ev)) = true) history) init))
      as [= _ _ Hs]; [|done].
    apply (view_of_kept_events laser_view
             (λ ev, bool_decide (is_Some (reading_on Laser ev))));
      [|apply laser_view_step].
    intros st ev Hkeep. apply foreign_event_keeps_laser_view.
    apply bool_decide_eq_false in Hkeep. by apply eq_None_not_Some.
  - assert (laser2_view (run history init) = laser2_view
      (run (filter (λ ev, bool_decide (is_Some (reading_on Laser2 ev)) = true) history) init))
      as [= _ _ Hs]; [|done].
    apply (view_of_kept_events laser2_view
             (λ ev, bool_decide (is_Some (reading_on Laser2 ev))));
      [|apply laser2_view_step].
    intros st ev Hkeep. apply foreign_event_keeps_laser2_view.
    apply bool_decide_eq_false in Hkeep. by apply eq_None_not_Some.
  - assert (odom_view (run history init) = odom_view
      (run (filter (λ ev, is_odometry ev = true) history) init))
      as [= _ Hs]; [|done].
    apply (view_of_kept_events odom_view is_odometry); [|apply odom_view_step].
    apply foreign_event_keeps_odom_view.
Qed.

(** X5.  What the node asked of the session client and the two names it
    remembers do not depend on the readings that do not reach the diagnosis:
    with or without the odometry readings and the laser and laser2 readings
    whose send did not fail, they are the same.  (A reading whose send
    failed reaches [checkLaserScan] and with it [get_config_entry], which is
    not among the sources; such readings stay in the history.) *)
Theorem requests_do_not_depend_on_sent_readings (history : list Event) :
  let kept := filter (λ ev, may_reach_the_client ev = true) history in
  rpc (run history init) = rpc (run kept init)
  ∧ last_recording_name_ (run history init) = last_recording_name_ (run kept init)
  ∧ last_map_name_ (run history init) = last_map_name_ (run kept init).
Proof.
  intros kept. subst kept.
  assert (request_view (run history init) = request_view
    (run (filter (λ ev, may_reach_the_client ev = true) history) init))
    as [= Hr Hm Hs]; [|done].
  apply (view_of_kept_events request_view may_reach_the_client);
    [|apply request_view_step].
  intros st ev Hkeep. apply reading_keeps_request_view.
  by destruct ev as [? []|? []|? ?| | | | | | | | | | | |].
Qed.

(** *** The log *)

Lemma checkLaserScan_ignores_scan_time t msg laser :
  checkLaserScan get_config_entry (set_scan_time t msg) laser
  = checkLaserScan get_config_entry msg laser.
Proof. done. Qed.

Lemma step_log st ev :
  log (step st ev) = log st ++ event_lines get_config_entry ev.
Proof.
  destruct ev as [msg status|msg status|msg status|msg| | | | | | | | | | |];
    simpl; rewrite ?app_nil_r; try done.
  - unfold Bridge.laser_callback, derive_scan_time.
    destruct (Qeq_bool (scan_time msg) 0), (prev_laser_timestamp_ st =? 0), status;
      simpl; by rewrite ?app_nil_r.
  - unfold Bridge.laser2_callback, derive_scan_time.
    destruct (Qeq_bool (scan_time msg) 0), (prev_laser2_timestamp_ st =? 0), status;
      simpl; by rewrite ?app_nil_r.
  - unfold setSeedCallback.
    destruct (String.eqb _ _); simpl; by rewrite ?app_nil_r.
Qed.

(** X6.  The log of the node is made event by event and needs nothing the
    node remembers: only a laser or laser2 reading whose send failed with an
    I/O failure adds lines, those of the diagnosis of the scan as it
    arrived, and only a seed pose outside the map frame adds the line about
    its frame.  Odometry readings, sent or failed, and all services add
    none. *)
Theorem log_is_made_event_by_event (history : list Event) :
  log (run history init) = history ≫= event_lines get_config_entry.
Proof.
  induction history as [|ev history IH] using rev_ind; [done|].
  rewrite run_app. simpl. rewrite step_log, IH, bind_app. simpl.
  by rewrite app_nil_r.
Qed.



End NodeMore.

Section NodeMoreRuns.
Import Bridge Samples.

Lemma calls_carry_the_session_sample :
  let session : gmap string Value := {[ "sessionId" := VString "s-1" ]} in
  let trace := rpc (run (2 ^ 32) (λ _, None) session (λ _, 0%Q)
                        [LaserReading (scan_at 1 0) IO_EXCEPTION; MapStart "" "map1"]
                        init) in
  (∃ j, 1%nat = S j ∧ trace !! j = Some GetSessionQuery)
  ∧ ∀ key, key ∉ Traces.keys_set_by_callbacks →
           (<["clientMapName" := VString "map1"]>
              (<["recordingName" := VString ""]> session)) !! key
           = session !! key.
Proof.
  apply (calls_carry_the_session (2 ^ 32) (λ _, None)
           {[ "sessionId" := VString "s-1" ]} (λ _, 0%Q)
           [LaserReading (scan_at 1 0) IO_EXCEPTION; MapStart "" "map1"]
           1 "clientMapStart").
  reflexivity.
Defined.


End NodeMoreRuns.

(** ** 3. Start and end of the node *)

(** Membership in a list that is written out. *)
Ltac in_list :=
  repeat first [ apply list_elem_of_here | apply list_elem_of_further ].

Ltac case_in H :=
  repeat (apply elem_of_cons in H as [H|H]; [try discriminate H|]);
  try (by apply elem_of_nil in H).

(** The position [i] of a list written out, by cases; the cases that [H],
    a lookup at [i], rules out are closed. *)
Ltac at_position H i :=
  repeat (lazymatch type of H with
          | (_ :: _) !! _ = _ =>
              destruct i as [|i]; simpl in H; [try discriminate H|]
          end);
  try (by rewrite lookup_nil in H).

(** An action at the position before the one in the goal. *)
Ltac directly_behind :=
  split; [done|];
  match goal with
  | |- ∃ j _, (j < ?n)%nat ∧ _ =>
      exists (Nat.pred n); eexists; split; [simpl; lia | reflexivity]
  end.

Section StartupFacts.
Import Startup.

Variable toString : Var → option string.

(** *** The overrides *)

Lemma overrides_keep params (doc : gmap string Var) warned key :
  (∀ p, (key, p) ∈ params → stored p = None) →
  (foldl override (doc, warned) params).1 !! key = doc !! key.
Proof.
  revert doc warned. induction params as [|[k p] params IH]; intros doc warned Hno;
    [done|].
  simpl. unfold override at 2. simpl.
  destruct (stored p) as [value|] eqn:Hstored.
  - rewrite IH by (intros p' Hin; apply Hno; by right). simpl.
    apply lookup_insert_ne. intros ->.
    specialize (Hno p (list_elem_of_here _ _)). congruence.
  - apply IH. intros p' Hin. apply Hno. by right.
Qed.

Lemma overrides_set params (doc : gmap string Var) warned key p value :
  NoDup params.*1 → (key, p) ∈ params → stored p = Some value →
  (foldl override (doc, warned) params).1 !! key = Some value.
Proof.
  revert doc warned. induction params as [|[k p0] params IH];
    intros doc warned Hnodup Hin Hstored; [by apply elem_of_nil in Hin|].
  rewrite fmap_cons in Hnodup. apply list.NoDup_cons in Hnodup as [Hfresh Hnodup].
  apply elem_of_cons in Hin as [[= <- <-]|Hin].
  - simpl. unfold override at 2. simpl. rewrite Hstored.
    rewrite overrides_keep; [apply lookup_insert_eq|].
    intros p' Hin. exfalso. apply Hfresh.
    apply list_elem_of_fmap. by exists (key, p').
  - simpl. destruct (override (doc, warned) (k, p0)) as [doc' warned'].
    by apply IH.
Qed.

(** *** The subscript *)

Lemma index_keeps key doc other value :
  doc !! other = Some value → (index key doc).2 !! other = Some value.
Proof.
  intros Hother. unfold index. destruct (doc !! key) eqn:Hkey; [done|]. simpl.
  rewrite lookup_insert_ne; [done|]. intros ->. congruence.
Qed.

Lemma index_finds key doc :
  (index key doc).2 !! key = Some (index key doc).1.
Proof.
  unfold index. destruct (doc !! key) eqn:Hkey; [done|]. simpl.
  apply lookup_insert_eq.
Qed.

Lemma text_at_Some key doc text doc' :
  text_at toString key doc = Some (text, doc') →
  doc' = (index key doc).2 ∧ toString (index key doc).1 = Some text.
Proof.
  unfold text_at. destruct (index key doc) as [value doc0]. simpl.
  destruct (toString value); [|done]. by intros [= <- <-].
Qed.

(** What a run of [syncConfig] that returns went through. *)
Lemma syncConfig_Some fetched params r :
  syncConfig toString fetched params = Some r →
  let d0 := (apply_overrides fetched params).1 in
  let d1 := (index "ClientSensor.laser.type" d0).2 in
  let d2 := (index "ClientSensor.enableLaser2" d1).2 in
  let d3 := (index "ClientSensor.laser2.type" d2).2 in
  let d4 := (index "ClientSensor.enableOdometry" d3).2 in
  ∃ t1 t2 t3 t4,
    toString (index "ClientSensor.laser.type" d0).1 = Some t1
    ∧ toString (index "ClientSensor.enableLaser2" d1).1 = Some t2
    ∧ toString (index "ClientSensor.laser2.type" d2).1 = Some t3
    ∧ toString (index "ClientSensor.enableOdometry" d3).1 = Some t4
    ∧ r = MkSyncResult (String.eqb t1 "simple")
                       (String.eqb t2 "true" && String.eqb t3 "simple")
                       (String.eqb t4 "true") d4
                       (apply_overrides fetched params).2.
Proof.
  unfold syncConfig. destruct (apply_overrides fetched params) as [d0 warned].
  simpl. case_bool_decide; [|done].
  destruct (text_at toString "ClientSensor.laser.type" d0) as [[t1 d1]|] eqn:H1;
    [|done]. simpl.
  destruct (text_at toString "ClientSensor.enableLaser2" d1) as [[t2 d2]|] eqn:H2;
    [|done]. simpl.
  destruct (text_at toString "ClientSensor.laser2.type" d2) as [[t3 d3]|] eqn:H3;
    [|done]. simpl.
  destruct (text_at toString "ClientSensor.enableOdometry" d3) as [[t4 d4]|] eqn:H4;
    [|done]. simpl.
  intros [= <-].
  apply text_at_Some in H1 as [-> H1], H2 as [-> H2], H3 as [-> H3], H4 as [-> H4].
  by exists t1, t2, t3, t4.
Qed.

(** X8.  The overrides win and nothing else is lost: when [syncConfig]
    returns, the document it handed to [setConfigList] holds, under the key
    of every parameter whose type the switch handles, the value of that
    parameter, and holds every other entry of the document that
    [getConfigList] gave as it was.  (The parameters come from a [std::map],
    so no key comes twice.) *)
Theorem syncConfig_overrides_win (fetched : gmap string Var)
    (params : list (string * RosParameter)) (r : SyncResult) :
  NoDup params.*1 →
  syncConfig toString fetched params = Some r →
  (∀ key p value,
     (key, p) ∈ params → stored p = Some value → written r !! key = Some value)
  ∧ (∀ key value,
       fetched !! key = Some value →
       (∀ p, (key, p) ∈ params → stored p = None) →
       written r !! key = Some value).
Proof.
  intros Hnodup Hsync.
  destruct (syncConfig_Some _ _ _ Hsync) as (t1 & t2 & t3 & t4 & _ & _ & _ & _ & ->).
  simpl. split.
  - intros key p value Hin Hstored. do 4 apply index_keeps.
    by apply (overrides_set params fetched [] key p).
  - intros key value Hfetched Hno. do 4 apply index_keeps.
    unfold apply_overrides. by rewrite overrides_keep.
Qed.

(** X9.  The flags say what the appliance was told: when [syncConfig]
    returns, the document it handed to [setConfigList] has all four entries
    that settle the flags, and laser data is provided exactly when its
    ClientSensor.laser.type reads "simple", laser2 data exactly when its
    ClientSensor.enableLaser2 reads "true" and its ClientSensor.laser2.type
    reads "simple", odometry data exactly when its
    ClientSensor.enableOdometry reads "true". *)
Theorem syncConfig_flags_follow_written (fetched : gmap string Var)
    (params : list (string * RosParameter)) (r : SyncResult) :
  syncConfig toString fetched params = Some r →
  let reads key text :=
    ∃ value, written r !! key = Some value ∧ toString value = Some text in
  (provide_laser_data_ r = true ↔ reads "ClientSensor.laser.type" "simple")
  ∧ (provide_laser2_data_ r = true ↔
     reads "ClientSensor.enableLaser2" "true"
     ∧ reads "ClientSensor.laser2.type" "simple")
  ∧ (provide_odometry_data_ r = true ↔ reads "ClientSensor.enableOdometry" "true")
  ∧ (∀ key, key ∈ [ "ClientSensor.laser.type"; "ClientSensor.enableLaser2";
                    "ClientSensor.laser2.type"; "ClientSensor.enableOdometry" ] →
            ∃ value text, written r !! key = Some value ∧ toString value = Some text).
Proof.
  intros Hsync.
  destruct (syncConfig_Some _ _ _ Hsync) as (t1 & t2 & t3 & t4 & H1 & H2 & H3 & H4 & ->).
  simpl.
  set (d0 := (apply_overrides fetched params).1) in *.
  set (d1 := (index "ClientSensor.laser.type" d0).2) in *.
  set (d2 := (index "ClientSensor.enableLaser2" d1).2) in *.
  set (d3 := (index "ClientSensor.laser2.type" d2).2) in *.
  set (d4 := (index "ClientSensor.enableOdometry" d3).2).
  assert (d4 !! "ClientSensor.laser.type"
          = Some (index "ClientSensor.laser.type" d0).1) as L1
    by (do 3 apply index_keeps; apply index_finds).
  assert (d4 !! "ClientSensor.enableLaser2"
          = Some (index "ClientSensor.enableLaser2" d1).1) as L2
    by (do 2 apply index_keeps; apply index_finds).
  assert (d4 !! "ClientSensor.laser2.type"
          = Some (index "ClientSensor.laser2.type" d2).1) as L3
    by (apply index_keeps; apply index_finds).
  assert (d4 !! "ClientSensor.enableOdometry"
          = Some (index "ClientSensor.enableOdometry" d3).1) as L4
    by apply index_finds.
  assert (∀ key value text text',
            d4 !! key = Some value → toString value = Some text →
            (String.eqb text text' = true ↔
             ∃ value', d4 !! key = Some value' ∧ toString value' = Some text'))
    as Hreads.
  { intros key value text text' Hkey Htext. rewrite String.eqb_eq. split.
    - intros <-. by exists value.
    - intros (value' & Hkey' & Htext'). congruence. }
  split; [by apply (Hreads _ _ _ _ L1)|].
  split.
  { rewrite andb_true_iff, (Hreads _ _ _ _ L2 H2), (Hreads _ _ _ _ L3 H3). done. }
  split; [by apply (Hreads _ _ _ _ L4)|].
  intros key Hkey. repeat (apply elem_of_cons in Hkey as [->|Hkey]); eauto.
  by apply elem_of_nil in Hkey.
Qed.

Lemma overrides_skip before after key p (doc : gmap string Var) warned :
  stored p = None →
  (foldl override (doc, warned) (before ++ (key, p) :: after)).1
  = (foldl override (doc, warned) (before ++ after)).1.
Proof.
  intros Hstored. rewrite !foldl_app. simpl. unfold override at 2.
  simpl. rewrite Hstored.
  generalize (foldl override (doc, warned) before). intros [doc' warned'].
  simpl. generalize (warned' ++ [get_type p]). revert doc' warned'.
  induction after as [|[k p'] after IH]; intros doc' warned' warned''; [done|].
  simpl. unfold override at 2 4. simpl.
  destruct (stored p'); apply IH.
Qed.

(** X10.  A parameter whose type the switch does not handle (not set, or a
    byte array) is passed over: with it or without it among the parameters,
    [syncConfig] ends the same way, with the same document for
    [setConfigList] and the same flags; and every such parameter leaves one
    warning, in the order of the parameters. *)
Theorem syncConfig_passes_over_unsupported (fetched : gmap string Var)
    (before after : list (string * RosParameter)) (key : string)
    (p : RosParameter) :
  stored p = None →
  let settled (r : SyncResult) :=
    (written r, provide_laser_data_ r, provide_laser2_data_ r,
     provide_odometry_data_ r) in
  settled <$> syncConfig toString fetched (before ++ (key, p) :: after)
  = settled <$> syncConfig toString fetched (before ++ after)
  ∧ ∀ params,
      (apply_overrides fetched params).2
      = omap (λ param, match stored param.2 with
                       | Some _ => None
                       | None => Some (get_type param.2)
                       end) params.
Proof.
  intros Hstored. split.
  - pose proof (overrides_skip before after key p fetched [] Hstored) as Hdoc.
    unfold syncConfig, apply_overrides.
    destruct (foldl override (fetched, []) (before ++ (key, p) :: after)) as [d w].
    destruct (foldl override (fetched, []) (before ++ after)) as [d' w'].
    simpl in Hdoc. subst d'.
    case_bool_decide; [|done].
    destruct (text_at toString "ClientSensor.laser.type" d) as [[t1 d1]|]; [|done].
    simpl.
    destruct (text_at toString "ClientSensor.enableLaser2" d1) as [[t2 d2]|]; [|done].
    simpl.
    destruct (text_at toString "ClientSensor.laser2.type" d2) as [[t3 d3]|]; [|done].
    simpl.
    by destruct (text_at toString "ClientSensor.enableOdometry" d3) as [[t4 d4]|].
  - intros params. unfold apply_overrides.
    assert (∀ doc warned,
              (foldl override (doc, warned) params).2
              = warned ++ omap (λ param, match stored param.2 with
                                         | Some _ => None
                                         | None => Some (get_type param.2)
                                         end) params) as Hgen; [|apply Hgen].
    induction params as [|[k p'] params IH]; intros doc warned; simpl.
    + by rewrite app_nil_r.
    + unfold override at 2. simpl.
      destruct (stored p'); rewrite IH; simpl; [done|]. by rewrite <- app_assoc.
Qed.

(** *** [init] and the destructor *)

Lemma laser_flag_reads fetched params r :
  syncConfig toString fetched params = Some r →
  provide_laser_data_ r = true ↔
  ∃ value, written r !! "ClientSensor.laser.type" = Some value
           ∧ toString value = Some "simple".
Proof.
  intros Hsync.
  destruct (syncConfig_Some _ _ _ Hsync) as (t1 & t2 & t3 & t4 & H1 & _ & _ & _ & ->).
  simpl. rewrite String.eqb_eq.
  assert ((index "ClientSensor.enableOdometry"
             (index "ClientSensor.laser2.type"
                (index "ClientSensor.enableLaser2"
                   (index "ClientSensor.laser.type"
                      (apply_overrides fetched params).1).2).2).2).2
            !! "ClientSensor.laser.type"
          = Some (index "ClientSensor.laser.type" (apply_overrides fetched params).1).1)
    as L1 by (do 3 apply index_keeps; apply index_finds).
  split.
  - intros <-. eauto.
  - intros (value & Hvalue & Htext). congruence.
Qed.

(** X11.  [init] throws its "locator software incompatible with this
    bridge!" exactly when a module of the registry is missing from the
    answer of the appliance or is reported with another major or a smaller
    minor version, and by then it has logged in, started the refresh timer
    and asked for the modules, and nothing more: the config of the appliance
    is neither fetched nor written, no service, subscription or interface
    exists. *)
Theorem init_refuses_incompatible_appliance
    (module_versions : gmap string (Z * Z)) (loc_client_config : gmap string Var)
    (locator_parameters : list (string * RosParameter))
    (string_parameters : gmap string string) (int_parameters : gmap string Z) :
  let node := init toString module_versions loc_client_config locator_parameters
                   string_parameters int_parameters in
  let incompatible :=
    RuntimeError "locator software incompatible with this bridge!" in
  (thrown node = Some incompatible ↔
   ∃ entry, entry ∈ Versions.REQUIRED_MODULE_VERSIONS
            ∧ Versions.offending module_versions entry)
  ∧ (thrown node = Some incompatible →
     actions node = [Login; StartRefreshTimer; GetAboutModules]
     ∧ laser_sending_interface_ node = false
     ∧ laser2_sending_interface_ node = false
     ∧ odom_sending_interface_ node = false).
Proof.
  intros node incompatible. subst node incompatible. unfold init.
  rewrite <- check_against_false. fold (Versions.check_module_versions module_versions).
  destruct (Versions.check_module_versions module_versions); simpl.
  - by destruct (syncConfig toString loc_client_config locator_parameters).
  - done.
Qed.

(** X12.  A sensor callback is bound only behind its sending interface:
    whenever [init] subscribed the laser, laser2 or odometry callback, it
    had before that, earlier in what it did, started the sending interface
    of that channel, and the pointer to it is set.  And when [init]
    returns, the seed callback is bound to /initialpose, all ten services
    exist and all nine receiving interfaces are started, whatever the
    flags. *)
Theorem init_binds_callbacks_behind_interfaces
    (module_versions : gmap string (Z * Z)) (loc_client_config : gmap string Var)
    (locator_parameters : list (string * RosParameter))
    (string_parameters : gmap string string) (int_parameters : gmap string Z) :
  let node := init toString module_versions loc_client_config locator_parameters
                   string_parameters int_parameters in
  (∀ i topic, actions node !! i = Some (Subscribe LaserCallback topic) →
              laser_sending_interface_ node = true
              ∧ ∃ j port, (j < i)%nat
                          ∧ actions node !! j = Some (StartSending SendLaser port))
  ∧ (∀ i topic, actions node !! i = Some (Subscribe Laser2Callback topic) →
                laser2_sending_interface_ node = true
                ∧ ∃ j port, (j < i)%nat
                            ∧ actions node !! j = Some (StartSending SendLaser2 port))
  ∧ (∀ i topic, actions node !! i = Some (Subscribe OdomCallback topic) →
                odom_sending_interface_ node = true
                ∧ ∃ j port, (j < i)%nat
                            ∧ actions node !! j = Some (StartSending SendOdometry port))
  ∧ (thrown node = None →
     Subscribe SeedCallback "/initialpose" ∈ actions node
     ∧ (∀ name, name ∈ service_names → CreateService name ∈ actions node)
     ∧ (∀ channel, StartReceiving channel ∈ actions node)).
Proof.
  intros node. subst node. unfold init.
  destruct (Versions.check_module_versions module_versions); simpl.
  2: { (split; [|split; [|split]]); [| | |done];
       intros i topic Hat; by at_position Hat i. }
  destruct (syncConfig toString loc_client_config locator_parameters) as [sync|];
    simpl.
  2: { (split; [|split; [|split]]); [| | |done];
       intros i topic Hat; by at_position Hat i. }
  unfold service_names, setupBinaryReceiverInterfaces.
  destruct (provide_laser_data_ sync), (provide_laser2_data_ sync),
    (provide_odometry_data_ sync); simpl;
    (split; [|split; [|split]]);
    try (intros i topic Hat; at_position Hat i; directly_behind);
    (intros _; split; [by in_list|]; split;
     [ intros name Hname; case_in Hname; subst name; by in_list
     | intros []; by in_list ]).
Qed.

(** X13.  The destructor gets to stop the sending interfaces only on a
    node whose [init] wrote the config back with a ClientSensor.laser.type
    that reads "simple", and then it stops exactly the interfaces that
    [init] started.  On every other node, after an [init] that threw as
    well as after one that provides no laser data, it reaches through the
    pointer to the laser interface that was never set. *)
Theorem destructor_needs_the_laser_interface
    (module_versions : gmap string (Z * Z)) (loc_client_config : gmap string Var)
    (locator_parameters : list (string * RosParameter))
    (string_parameters : gmap string string) (int_parameters : gmap string Z) :
  let node := init toString module_versions loc_client_config locator_parameters
                   string_parameters int_parameters in
  (is_Some (destructor node) ↔
   ∃ doc value, SetConfigList doc ∈ actions node
                ∧ doc !! "ClientSensor.laser.type" = Some value
                ∧ toString value = Some "simple")
  ∧ (∀ stopped, destructor node = Some stopped →
       ∀ channel, channel ∈ stopped ↔ ∃ port, StartSending channel port ∈ actions node).
Proof.
  intros node. subst node. unfold init, destructor.
  destruct (Versions.check_module_versions module_versions); simpl.
  2: { split; [|done]. split; [by intros [? ?]|].
       intros (doc & value & Hin & _). by case_in Hin. }
  destruct (syncConfig toString loc_client_config locator_parameters) as [sync|] eqn:Hsync;
    simpl.
  2: { split; [|done]. split; [by intros [? ?]|].
       intros (doc & value & Hin & _). by case_in Hin. }
  pose proof (laser_flag_reads _ _ _ Hsync) as Hlaser.
  unfold service_names, setupBinaryReceiverInterfaces.
  split.
  - destruct (provide_laser_data_ sync) eqn:Hflag.
    + split; [intros _|by eauto].
      destruct (proj1 Hlaser eq_refl) as (value & Hvalue & Htext).
      exists (written sync), value. split; [by in_list|done].
    + split; [by intros [? ?]|].
      intros (doc & value & Hin & Hvalue & Htext).
      assert (doc = written sync) as ->.
      { destruct (provide_laser2_data_ sync), (provide_odometry_data_ sync);
          simpl in Hin; case_in Hin; by injection Hin. }
      assert (false = true) by (apply Hlaser; eauto). done.
  - intros stopped.
    destruct (provide_laser_data_ sync), (provide_laser2_data_ sync),
      (provide_odometry_data_ sync); simpl; intros [= <-]; intros [];
      (split;
       [ intros Hin; first [ by case_in Hin | by (eexists; in_list) ]
       | intros [port Hin]; first [ by in_list | by case_in Hin ] ]).
Qed.

End StartupFacts.

Section StartupRuns.
Import Startup MoreSamples.

Lemma syncConfig_overrides_win_sample :
  ∃ r, syncConfig render appliance_config node_overrides = Some r
       ∧ (∀ key p value,
            (key, p) ∈ node_overrides → stored p = Some value →
            written r !! key = Some value)
       ∧ (∀ key value,
            appliance_config !! key = Some value →
            (∀ p, (key, p) ∈ node_overrides → stored p = None) →
            written r !! key = Some value).
Proof.
  destruct (syncConfig render appliance_config node_overrides) as [r|] eqn:Hsync;
    [|by vm_compute in Hsync].
  exists r. split; [done|].
  apply (syncConfig_overrides_win render appliance_config node_overrides r);
    [|done].
  apply (bool_decide_unpack _). vm_compute. exact I.
Defined.

Lemma syncConfig_flags_follow_written_sample :
  ∃ r, syncConfig render appliance_config node_overrides = Some r
       ∧ (provide_laser_data_ r = true ↔
          ∃ value, written r !! "ClientSensor.laser.type" = Some value
                   ∧ render value = Some "simple")
       ∧ (provide_laser2_data_ r = true ↔
          (∃ value, written r !! "ClientSensor.enableLaser2" = Some value
                    ∧ render value = Some "true")
          ∧ ∃ value, written r !! "ClientSensor.laser2.type" = Some value
                     ∧ render value = Some "simple")
       ∧ (provide_odometry_data_ r = true ↔
          ∃ value, written r !! "ClientSensor.enableOdometry" = Some value
                   ∧ render value = Some "true")
       ∧ (∀ key, key ∈ [ "ClientSensor.laser.type"; "ClientSensor.enableLaser2";
                         "ClientSensor.laser2.type"; "ClientSensor.enableOdometry" ] →
                 ∃ value text, written r !! key = Some value ∧ render value = Some text).
Proof.
  destruct (syncConfig render appliance_config node_overrides) as [r|] eqn:Hsync;
    [|by vm_compute in Hsync].
  exists r. split; [done|].
  by apply (syncConfig_flags_follow_written render appliance_config node_overrides r).
Defined.

Lemma syncConfig_passes_over_unsupported_sample :
  let settled (r : SyncResult) :=
    (written r, provide_laser_data_ r, provide_laser2_data_ r,
     provide_odometry_data_ r) in
  settled <$> syncConfig render appliance_config node_overrides
  = settled <$> syncConfig render appliance_config (take 2 node_overrides)
  ∧ ∀ params,
      (apply_overrides appliance_config params).2
      = omap (λ param, match stored param.2 with
                       | Some _ => None
                       | None => Some (get_type param.2)
                       end) params.
Proof.
  apply (syncConfig_passes_over_unsupported render appliance_config
           (take 2 node_overrides) [] "ClientSensor.odometry.note" NotSet).
  reflexivity.
Defined.

(** The sample node: the overrides reach the appliance, laser and odometry
    data are provided, laser2 data is not, and the parameter without a value
    leaves a warning. *)
Example sample_sync :
  (λ r, (provide_laser_data_ r, provide_laser2_data_ r, provide_odometry_data_ r,
         warnings r))
    <$> syncConfig render appliance_config node_overrides
  = Some (true, false, true, [PARAMETER_NOT_SET]).
Proof. vm_compute. reflexivity. Qed.

(** An appliance that does not report whether odometry is enabled: the
    subscript puts an empty entry in, which does not render, and
    [syncConfig] does not return. *)
Example sample_sync_without_entry :
  syncConfig render (delete "ClientSensor.enableOdometry" appliance_config) [] = None.
Proof. vm_compute. reflexivity. Qed.

End StartupRuns.

(** ** 4. The telemetry receiving interfaces *)

Section ChannelMore.
Import Receiving.

Context {M Out : Type}.
Variable convert : byte → Decoder M.
Variable publish : M → list Out.

(** *** Bytes and messages over a whole feed *)

Lemma readRecord_takes_from_front (d : Decoder M) buf :
  match readRecord d buf with
  | Parsed _ rest | Failed rest => ∃ consumed, buf = consumed ++ rest
  | Incomplete => True
  end.
Proof.
  revert buf. induction d as [m|k IH|]; intros buf; simpl.
  - by exists [].
  - destruct buf as [|b buf]; [done|].
    specialize (IH b buf). destruct (readRecord (k b) buf) as [m rest| |rest];
      [|done|]; destruct IH as [consumed ->]; by exists (b :: consumed).
  - by exists [].
Qed.

Lemma drained_takes_from_front buf :
  ∃ consumed, buf = consumed ++ (drained convert buf).2.
Proof.
  remember (length buf) as n eqn:Hn. revert buf Hn.
  induction n as [n IH] using lt_wf_ind. intros buf ->.
  destruct buf as [|b buf]; [by exists []|].
  rewrite drained_step by done.
  pose proof (readRecord_takes_from_front (Read convert) (b :: buf)) as Hfront.
  destruct (readRecord (Read convert) (b :: buf)) as [m rest| |rest] eqn:Hrec.
  - destruct Hfront as [consumed Hfront].
    destruct (IH (length rest) (record_has_a_byte _ _ _ _ Hrec) rest eq_refl)
      as [consumed' Hrest].
    destruct (drained convert rest) as [[c ms] leftover]. simpl in *.
    exists (consumed ++ consumed'). by rewrite <- app_assoc, <- Hrest.
  - by exists [].
  - done.
Qed.

Lemma deliver_takes_from_front chunk st :
  ∃ consumed ms,
    unread st ++ chunk = consumed ++ unread (deliver convert publish chunk st)
    ∧ published (deliver convert publish chunk st)
      = published st ++ concat (publish <$> ms).
Proof.
  pose proof (deliver_drained convert publish chunk st) as Hdeliver.
  destruct (drained_takes_from_front (unread st ++ chunk)) as [consumed Hfront].
  destruct (drained convert (unread st ++ chunk)) as [[c ms] leftover].
  destruct Hdeliver as (Hu & Hp & _). simpl in Hfront.
  exists consumed, ms. by rewrite Hu, Hp.
Qed.

(** X14.  Over any feed, from any state of the interface and whatever the
    converter does, decode errors included: the bytes that are left unread
    are the end of the bytes that were there and came in, so the handler
    takes bytes from the front only and neither reorders nor makes up any;
    and what is published was added behind what was published before, in
    whole groups, one group per decoded record. *)
Theorem feed_takes_bytes_from_the_front (chunks : list (list byte))
    (st : Interface Out) :
  ∃ consumed ms,
    unread st ++ concat chunks
    = consumed ++ unread (feed convert publish chunks st)
    ∧ published (feed convert publish chunks st)
      = published st ++ concat (publish <$> ms).
Proof.
  revert st. induction chunks as [|chunk chunks IH]; intros st.
  - exists [], []. simpl. by rewrite !app_nil_r.
  - simpl.
    destruct (deliver_takes_from_front chunk st) as (consumed1 & ms1 & Hu1 & Hp1).
    destruct (IH (deliver convert publish chunk st)) as (consumed2 & ms2 & Hu2 & Hp2).
    exists (consumed1 ++ consumed2), (ms1 ++ ms2). split.
    + by rewrite app_assoc, Hu1, <- !app_assoc, Hu2.
    + by rewrite Hp2, Hp1, fmap_app, concat_app, app_assoc.
Qed.

(** *** A readiness event without bytes *)

Lemma parse_loop_console fuel st :
  console (parse_loop convert publish fuel st).2 = console st.
Proof.
  rewrite parse_loop_drain.
  by destruct (drain convert fuel (unread st)) as [[c ms] leftover].
Qed.

(** X15.  The handler writes its "received msg of length 0" line to the
    console exactly when it is called with no byte available, and then it
    does nothing else: no decode attempt, nothing published or logged. *)
Theorem onReadEvent_without_bytes (st : Interface Out) :
  console (onReadEvent convert publish st).2
  = (if unread st is []
     then console st ++ ["received msg of length 0... Connection closed? "]
     else console st)
  ∧ (unread st = [] →
     onReadEvent convert publish st
     = (Normal, add_console "received msg of length 0... Connection closed? " st)).
Proof.
  destruct st as [buf pub lg con stopped shut]. split.
  - destruct buf as [|b buf]; [done|].
    pose proof (parse_loop_console (S (length buf))
                  (MkInterface (b :: buf) pub lg con stopped shut)) as Hconsole.
    unfold onReadEvent, try_block, available. cbn [unread length] in *.
    destruct (parse_loop convert publish (S (length buf)) _) as [[] st'];
      by simpl in *.
  - by intros [= ->].
Qed.

(** *** Pieces against the whole, decode errors included *)

Lemma drained_more_after_error buf more :
  (drained convert buf).1.1 = OtherException →
  drained convert (buf ++ more)
  = (OtherException, (drained convert buf).1.2, (drained convert buf).2 ++ more).
Proof.
  remember (length buf) as n eqn:Hn. revert buf Hn.
  induction n as [n IH] using lt_wf_ind. intros buf -> Herr.
  destruct buf as [|b buf]; [done|].
  rewrite (drained_step convert (b :: buf)) in Herr |- * by done.
  rewrite (drained_step convert ((b :: buf) ++ more)) by done.
  destruct (readRecord (Read convert) (b :: buf)) as [m rest| |rest] eqn:Hrec.
  - rewrite (readRecord_more _ _ more _ _ Hrec).
    pose proof (record_has_a_byte _ _ _ _ Hrec) as Hlen.
    specialize (IH (length rest) Hlen rest eq_refl).
    destruct (drained convert rest) as [[c ms] leftover] eqn:Hrest.
    simpl in Herr |- *. by rewrite (IH Herr).
  - done.
  - by rewrite (readRecord_more_failed _ _ more _ Hrec).
Qed.

Lemma feed_only_adds chunks st :
  published st `prefix_of` published (feed convert publish chunks st).
Proof.
  revert st. induction chunks as [|chunk chunks IH]; intros st; [done|].
  simpl. etrans; [|apply IH].
  destruct (deliver_takes_from_front chunk st) as (consumed & ms & _ & ->).
  by apply prefix_app_r.
Qed.

Lemma feed_publishes_the_whole_first chunks st :
  quiescent convert st →
  (published st
   ++ concat (publish <$> (drained convert (unread st ++ concat chunks)).1.2))
  `prefix_of` published (feed convert publish chunks st).
Proof.
  revert st. induction chunks as [|chunk chunks IH]; intros st Hq.
  - simpl. rewrite app_nil_r. destruct Hq as (_ & -> & _). simpl.
    by rewrite app_nil_r.
  - simpl. rewrite app_assoc.
    pose proof (deliver_drained convert publish chunk st) as Hst1.
    assert ((drained convert (unread st ++ chunk)).1.1 = OtherException
            ∨ (drained convert (unread st ++ chunk)).1.1 ≠ OtherException)
      as [Herr|Hok]
      by (destruct ((drained convert (unread st ++ chunk)).1.1); auto).
    + rewrite (drained_more_after_error _ (concat chunks) Herr). simpl.
      destruct (drained convert (unread st ++ chunk)) as [[c1 ms1] l1].
      simpl in *. destruct Hst1 as (_ & <- & _). apply feed_only_adds.
    + pose proof (drained_again convert _ Hok) as Hagain.
      rewrite (drained_more convert _ (concat chunks) Hok).
      destruct (drained convert (unread st ++ chunk)) as [[c1 ms1] l1].
      simpl in Hst1, Hagain, Hok. destruct Hst1 as (Hu1 & Hp1 & _).
      specialize (IH (deliver convert publish chunk st)).
      rewrite Hu1, Hp1 in IH.
      destruct (drained convert (l1 ++ concat chunks)) as [[c2 ms2] l2].
      simpl in IH |- *. rewrite fmap_app, concat_app, app_assoc.
      apply IH. unfold quiescent. by rewrite Hu1, Hagain.
Qed.

(** X16.  On a freshly connected channel and whatever the converter does,
    decode errors included: what the whole stream delivered at once gets
    published is published first, in the same order, when the same stream
    comes in pieces cut at any positions.  Pieces can only add to it: a
    decode error ends the one event of the whole stream, while a later piece
    brings a new event that goes on behind the malformed record. *)
Theorem feeding_at_once_publishes_a_prefix (chunks : list (list byte)) :
  published (feed convert publish [concat chunks] (connected : Interface Out))
  `prefix_of` published (feed convert publish chunks connected).
Proof.
  pose proof (feed_publishes_the_whole_first chunks connected
                (connected_quiescent convert)) as Hpieces.
  pose proof (deliver_drained convert publish (concat chunks) connected) as Hwhole.
  simpl in *.
  destruct (drained convert (concat chunks)) as [[c ms] l].
  destruct Hwhole as (_ & Hp & _). simpl in *. by rewrite Hp.
Qed.

End ChannelMore.

(** ** 7. The receiving channels *)

Section ChannelsFacts.
Import Receiving Channels.

Variable double : Type.
Variable zero : double.
Variable ControlModeMsg PointCloud2 PoseArray : Type.
Variable MapVisualizationMsg RecordingVisualizationMsg : Type.
Variable LocalizationVisualizationMsg LocalizationPoseMsg : Type.
Variable GlobalAlignVisualizationMsg : Type.
Variable LASER_FRAME_ID : string.

Local Abbreviation output :=
  (output double ControlModeMsg PointCloud2 PoseArray MapVisualizationMsg
          RecordingVisualizationMsg LocalizationVisualizationMsg
          LocalizationPoseMsg GlobalAlignVisualizationMsg).
Local Abbreviation decoded :=
  (decoded double ControlModeMsg PointCloud2 PoseArray MapVisualizationMsg
           RecordingVisualizationMsg LocalizationVisualizationMsg
           LocalizationPoseMsg GlobalAlignVisualizationMsg).
Local Abbreviation publish_of :=
  (publish_of double zero ControlModeMsg PointCloud2 PoseArray
              MapVisualizationMsg RecordingVisualizationMsg
              LocalizationVisualizationMsg LocalizationPoseMsg
              GlobalAlignVisualizationMsg LASER_FRAME_ID).
Local Abbreviation fits :=
  (fits double ControlModeMsg PointCloud2 PoseArray MapVisualizationMsg
        RecordingVisualizationMsg LocalizationVisualizationMsg
        LocalizationPoseMsg GlobalAlignVisualizationMsg LASER_FRAME_ID).
Local Abbreviation is_transform :=
  (is_transform double ControlModeMsg PointCloud2 PoseArray MapVisualizationMsg
                RecordingVisualizationMsg LocalizationVisualizationMsg
                LocalizationPoseMsg GlobalAlignVisualizationMsg).

Ltac open_channel channel record :=
  destruct channel; simpl in record |- *;
  unfold ClientControlMode_publish, ClientMapMap_publish,
    ClientMapVisualization_publish, ClientRecordingMap_publish,
    ClientRecordingVisualization_publish, ClientLocalizationMap_publish,
    ClientLocalizationVisualization_publish, ClientLocalizationPose_publish,
    ClientGlobalAlignVisualization_publish;
  repeat match goal with r : (_ * _)%type |- _ => destruct r end.

Lemma feed_publishes_groups {M Out : Type} (convert : byte → Decoder M)
    (publish : M → list Out) chunks (st : Interface Out) :
  ∃ ms, published (feed convert publish chunks st)
        = published st ++ concat (publish <$> ms).
Proof.
  revert st. induction chunks as [|chunk chunks IH]; intros st.
  - exists []. simpl. by rewrite app_nil_r.
  - simpl. destruct (IH (deliver convert publish chunk st)) as [ms2 ->].
    destruct (deliver_takes_from_front convert publish chunk st)
      as (_ & ms1 & _ & ->).
    exists (ms1 ++ ms2). by rewrite fmap_app, concat_app, app_assoc.
Qed.

Lemma publish_of_fits channel (record : decoded channel) :
  Forall (fits channel) (publish_of channel record).
Proof.
  open_channel channel record;
    repeat (constructor; [simpl; first [in_list | done]|]);
    constructor.
Qed.

Lemma publish_of_transforms channel (record : decoded channel) :
  length (filter (λ o, is_transform o = true) (publish_of channel record))
  = if broadcasts channel then 1%nat else 0%nat.
Proof.
  open_channel channel record; done.
Qed.

Lemma transforms_of_groups channel (records : list (decoded channel)) :
  length (filter (λ o, is_transform o = true)
                 (concat (publish_of channel <$> records)))
  = if broadcasts channel then length records else 0%nat.
Proof.
  induction records as [|record records IH].
  - by destruct (broadcasts channel).
  - rewrite fmap_cons, concat_cons, list.filter_app, length_app, IH,
      publish_of_transforms.
    by destruct (broadcasts channel).
Qed.

(** X17.  On each of the nine channels, whatever the converter decodes and
    however the bytes come in, from a fresh connection: what the channel
    gave out is made of whole groups, one per decoded record; every message
    went to a topic of a publisher that the constructor of the channel
    created; every transform goes from the map frame to the laser frame;
    and the map visualization, recording visualization and localization
    pose channels sent exactly one transform per record, the other six
    channels none (the localization visualization channel decodes a pose
    but does not broadcast it). *)
Theorem channels_publish_where_they_advertise
    (channel : Startup.ReceivingChannel)
    (convert : byte → Decoder (decoded channel)) (chunks : list (list byte)) :
  ∃ records : list (decoded channel),
    published (feed convert (publish_of channel) chunks connected)
    = concat (publish_of channel <$> records)
    ∧ Forall (fits channel)
             (published (feed convert (publish_of channel) chunks connected))
    ∧ length (filter (λ o, is_transform o = true)
                (published (feed convert (publish_of channel) chunks connected)))
      = if broadcasts channel then length records else 0%nat.
Proof.
  destruct (feed_publishes_groups convert (publish_of channel) chunks connected)
    as [records Hpub].
  simpl in Hpub. exists records. rewrite Hpub. split; [done|]. split.
  - apply Forall_concat, Forall_fmap, Forall_forall. intros record _.
    apply publish_of_fits.
  - apply transforms_of_groups.
Qed.

End ChannelsFacts.
